(** * fractal_tree: the tree generator of [fractal_tree.py]

    The development embeds the functions of the generator,
    [create_new_element] and [create_tree], and the computing part of
    [main], and proves the properties of the element geometry and of the
    breadth-first expansion.

    Numbers.  The code computes on Python numbers.  The embedding is
    written once, over an [arithmetic]: a type of numbers with the
    operations the code applies to them, where [/] and [**] may raise.  The
    properties of the traversal are proved for every arithmetic, hence for
    the arithmetic of the Python interpreter.  Two arithmetics are given:
    [float_arith], IEEE binary64, in which the code's behaviour on
    concrete inputs is computed, and [real_arith], exact real numbers, in
    which rounding, underflow and overflow are absent.  A coordinate given
    as a Python [int] is read as the float of the same value.  Depths are
    Python integers, modelled as [Z]. *)

From Stdlib Require Import Floats.
From Stdlib Require Import String.
From Stdlib Require Import Reals Lra Lia ZArith Arith List Bool Sorted Permutation.
From Equations Require Import Equations.
Import ListNotations.

(* A decimal literal denotes the nearest binary64 value, as in Python. *)
#[local] Set Warnings "-inexact-float".

(** ** Exceptions and the error monad *)

Module Py.

(** The exceptions the modelled code can raise. *)
Inductive exn : Set :=
| ZeroDivisionError
| OverflowError
| IndexError.

Inductive result (A : Type) : Type :=
| Ok (value : A)
| Raise (e : exn).
Arguments Ok {A} value.
Arguments Raise {A} e.

Definition bind {A B : Type} (m : result A) (k : A -> result B) : result B :=
  match m with
  | Ok v => k v
  | Raise e => Raise e
  end.

(** The class name under which Python reports an exception. *)
Definition exn_name (e : exn) : String.string :=
  match e with
  | ZeroDivisionError => "ZeroDivisionError"%string
  | OverflowError => "OverflowError"%string
  | IndexError => "IndexError"%string
  end.

(** [raises r name]: the computation [r] ends with an exception of class
    [name]. *)
Definition raises {A : Type} (r : result A) (name : String.string) : Prop :=
  exists e, r = Raise e /\ exn_name e = name.

(** [l[i]] with Python's negative indices. *)
Definition getitem {A : Type} (l : list A) (i : Z) : result A :=
  let n := Z.of_nat (length l) in
  let j := if (i <? 0)%Z then (i + n)%Z else i in
  if ((j <? 0)%Z || (n <=? j)%Z)%bool then Raise IndexError
  else match nth_error l (Z.to_nat j) with
       | Some x => Ok x
       | None => Raise IndexError
       end.

End Py.

Import Py.

Notation "x <- m ;; k" := (bind m (fun x => k))
  (at level 61, m at next level, right associativity).

(** ** Arithmetics *)

(** The numbers of the code and the operations it applies to them:
    [+], [-], [*], unary [-], [/], [** 2], [** 0.5] and the literals [0.5]
    and [0.33]. *)
Record arithmetic : Type := mkArithmetic {
  carrier : Type;
  num_add : carrier -> carrier -> carrier;
  num_sub : carrier -> carrier -> carrier;
  num_mul : carrier -> carrier -> carrier;
  num_neg : carrier -> carrier;
  num_div : carrier -> carrier -> result carrier;
  num_pow_2 : carrier -> result carrier;
  num_pow_0_5 : carrier -> result carrier;
  num_0_5 : carrier;
  num_0_33 : carrier
}.

(** Python floats, IEEE binary64.  [/] raises [ZeroDivisionError] on a
    divisor equal to zero; [x ** 2] raises [OverflowError] when the square
    of a finite [x] is not finite.  The values of [**], which Python takes
    from the C library, are the correctly rounded ones here. *)
Definition float_div (x y : float) : result float :=
  if PrimFloat.eqb y 0%float then Raise ZeroDivisionError
  else Ok (PrimFloat.div x y).

Definition float_pow_2 (x : float) : result float :=
  let y := PrimFloat.mul x x in
  if (PrimFloat.is_infinity y && negb (PrimFloat.is_infinity x))%bool
  then Raise OverflowError else Ok y.

Definition float_pow_0_5 (x : float) : result float := Ok (PrimFloat.sqrt x).

Definition float_arith : arithmetic := {|
  carrier := float;
  num_add := PrimFloat.add;
  num_sub := PrimFloat.sub;
  num_mul := PrimFloat.mul;
  num_neg := PrimFloat.opp;
  num_div := float_div;
  num_pow_2 := float_pow_2;
  num_pow_0_5 := float_pow_0_5;
  num_0_5 := 0.5%float;
  num_0_33 := 0.33%float
|}.

(** Exact real numbers: the field operations, [x ** 2] is [x ^ 2] and
    [x ** 0.5] is [sqrt]. *)
Definition real_div (x y : R) : result R :=
  if Req_dec_T y 0 then Raise ZeroDivisionError else Ok (x / y)%R.

Definition real_arith : arithmetic := {|
  carrier := R;
  num_add := Rplus;
  num_sub := Rminus;
  num_mul := Rmult;
  num_neg := Ropp;
  num_div := real_div;
  num_pow_2 := fun x => Ok (x ^ 2)%R;
  num_pow_0_5 := fun x => Ok (R_sqrt.sqrt x);
  num_0_5 := 0.5%R;
  num_0_33 := 0.33%R
|}.

Definition inspect {A : Type} (x : A) : {y : A | x = y} := exist _ x eq_refl.

Declare Scope py_scope.
Delimit Scope py_scope with py.

(** ** The generator *)

Section Generator.

Variable M : arithmetic.

Local Notation "x + y" := (num_add M x y) : py_scope.
Local Notation "x - y" := (num_sub M x y) : py_scope.
Local Notation "x * y" := (num_mul M x y) : py_scope.
Local Notation "- x" := (num_neg M x) : py_scope.

(** *** Data model *)

Definition point : Type := (carrier M * carrier M)%type.

Record TreeElement : Type := mkTreeElement {
  polygon : list point;
  depth : Z
}.

Definition ROOF_HEIGHT_FACTOR : carrier M := num_0_33 M.

(** *** [create_new_element] *)

Definition create_new_element (a b : point) (depth : Z) : result TreeElement :=
  let ba_x := (fst b - fst a)%py in
  let ba_y := (snd b - snd a)%py in
  let ta_x := (- ba_y)%py in
  let ta_y := ba_x in
  ta_x_2 <- num_pow_2 M ta_x ;;
  ta_y_2 <- num_pow_2 M ta_y ;;
  base_length <- num_pow_0_5 M (ta_x_2 + ta_y_2)%py ;;
  let rh := (base_length * ROOF_HEIGHT_FACTOR)%py in
  qx <- num_div M (rh * ta_x)%py base_length ;;
  let rt_x := (fst a + ta_x + ba_x * num_0_5 M + qx)%py in
  qy <- num_div M (rh * ta_y)%py base_length ;;
  let rt_y := (snd a + ta_y + ba_y * num_0_5 M + qy)%py in
  let points :=
    [ ((fst a + ta_x)%py, (snd a + ta_y)%py);
      a;
      b;
      ((fst b + ta_x)%py, (snd b + ta_y)%py);
      ((fst a + ta_x)%py, (snd a + ta_y)%py);
      (rt_x, rt_y);
      ((fst b + ta_x)%py, (snd b + ta_y)%py) ] in
  Ok {| polygon := points; depth := depth |}.

(** *** [create_tree] *)

(** A work item of the [front] list: [(a, b, depth)]. *)
Definition work_item : Type := (point * point * Z)%type.

(** One execution of the body of the [while] loop, after [front.pop(0)]
    returned [item] and left [front]. *)
Definition loop_body (max_depth : Z) (item : work_item)
    (front : list work_item) (all_elements : list TreeElement)
    : result (list work_item * list TreeElement) :=
  let '(base_a, base_b, depth) := item in
  element <- create_new_element base_a base_b depth ;;
  let all_elements := all_elements ++ [element] in
  if (depth >=? max_depth)%Z then Ok (front, all_elements)
  else
    a1 <- getitem (polygon element) (-3) ;;
    b1 <- getitem (polygon element) (-2) ;;
    a2 <- getitem (polygon element) (-2) ;;
    b2 <- getitem (polygon element) (-1) ;;
    let front := front ++ [(a1, b1, (depth + 1)%Z)] in
    let front := front ++ [(a2, b2, (depth + 1)%Z)] in
    Ok (front, all_elements).

(** Termination measure of the loop: an item at [depth] stands for the
    complete binary tree of the items still to be derived from it. *)
Definition item_weight (max_depth : Z) (item : work_item) : nat :=
  2 ^ S (Z.to_nat (max_depth - snd item)) - 1.

Definition front_weight (max_depth : Z) (front : list work_item) : nat :=
  list_sum (map (item_weight max_depth) front).

(** The [while len(front) != 0] loop. *)
Equations? while_loop (max_depth : Z) (front : list work_item)
    (all_elements : list TreeElement) : result (list TreeElement)
    by wf (front_weight max_depth front) lt :=
  while_loop max_depth [] all_elements := Ok all_elements;
  while_loop max_depth (item :: front) all_elements
    with inspect (loop_body max_depth item front all_elements) := {
    | exist _ (Raise e) _ := Raise e;
    | exist _ (Ok (front', all_elements')) Heq :=
        while_loop max_depth front' all_elements' }.
Proof.
  clear while_loop.
  assert (Hpos : forall it, (0 < item_weight max_depth it)%nat).
  { intros it. unfold item_weight.
    assert (H := Nat.pow_nonzero 2 (Z.to_nat (max_depth - snd it))).
    rewrite Nat.pow_succ_r'. lia. }
  assert (Hchild : forall (p q : point) (d : Z),
             (d < max_depth)%Z ->
             (2 * item_weight max_depth (p, q, (d + 1)%Z)
              < item_weight max_depth (p, q, d))%nat).
  { intros p q d Hlt. unfold item_weight. simpl snd.
    replace (Z.to_nat (max_depth - d))
      with (S (Z.to_nat (max_depth - (d + 1)))) by lia.
    assert (H := Nat.pow_nonzero 2 (Z.to_nat (max_depth - (d + 1)))).
    rewrite !Nat.pow_succ_r'. lia. }
  destruct item as [[a b] d]. unfold loop_body in Heq.
  destruct (create_new_element a b d) as [el|e]; simpl in Heq; [|discriminate].
  unfold front_weight. simpl map. simpl list_sum.
  destruct (Z.geb_spec d max_depth) as [Hge|Hlt].
  - injection Heq as <- <-. specialize (Hpos (a, b, d)). lia.
  - destruct (getitem (polygon el) (-3)) as [a1|]; simpl in Heq; [|discriminate].
    destruct (getitem (polygon el) (-2)) as [b1|]; simpl in Heq; [|discriminate].
    destruct (getitem (polygon el) (-1)) as [b2|]; simpl in Heq; [|discriminate].
    injection Heq as <- <-.
    rewrite !map_app, !list_sum_app. simpl map. simpl list_sum.
    assert (H1 := Hchild a1 b1 d Hlt). assert (H2 := Hchild b1 b2 d Hlt).
    unfold item_weight in *. simpl snd in *. lia.
Qed.

Definition create_tree (a b : point) (max_depth : Z) : result (list TreeElement) :=
  let all_elements := [] in
  let front := [(a, b, 0%Z)] in
  while_loop max_depth front all_elements.

(** The loop as a relation that counts the executions of its body:
    [loop_runs D front acc n q r] when the loop, started with the queue
    [front] and [all_elements = acc], ends after [n] executions of its body
    with outcome [r], the queue being [q] at that moment (an exception
    leaves the loop after [front.pop(0)] has removed the item). *)
Inductive loop_runs (max_depth : Z)
  : list work_item -> list TreeElement -> nat -> list work_item ->
    result (list TreeElement) -> Prop :=
| runs_exit : forall acc, loop_runs max_depth [] acc 0 [] (Ok acc)
| runs_raise : forall item front acc e,
    loop_body max_depth item front acc = Raise e ->
    loop_runs max_depth (item :: front) acc 1 front (Raise e)
| runs_iter : forall item front acc front' acc' n q r,
    loop_body max_depth item front acc = Ok (front', acc') ->
    loop_runs max_depth front' acc' n q r ->
    loop_runs max_depth (item :: front) acc (S n) q r.

(** The states of the loop, [(front, all_elements)], reached from a state
    by executions of the loop body. *)
Inductive loop_reaches (max_depth : Z)
  : list work_item * list TreeElement -> list work_item * list TreeElement -> Prop :=
| reaches_here : forall st, loop_reaches max_depth st st
| reaches_step : forall item front acc st' st'',
    loop_body max_depth item front acc = Ok st' ->
    loop_reaches max_depth st' st'' ->
    loop_reaches max_depth (item :: front, acc) st''.

(** Number of items of the last generation that an item of the queue
    still stands for. *)
Definition item_leaves (max_depth : Z) (item : work_item) : nat :=
  2 ^ Z.to_nat (max_depth - snd item).

Definition front_leaves (max_depth : Z) (front : list work_item) : nat :=
  list_sum (map (item_leaves max_depth) front).

(** *** The geometry in the vector notation of the specification *)

Definition vadd (p q : point) : point := ((fst p + fst q)%py, (snd p + snd q)%py).
Definition vsub (p q : point) : point := ((fst p - fst q)%py, (snd p - snd q)%py).
Definition vscale (k : carrier M) (p : point) : point :=
  ((k * fst p)%py, (k * snd p)%py).

(** [v / k]; the division may raise. *)
Definition vdiv (p : point) (k : carrier M) : result point :=
  x <- num_div M (fst p) k ;;
  y <- num_div M (snd p) k ;;
  Ok (x, y).

(** [|v|], computed as the code does: [(v.x ** 2 + v.y ** 2) ** 0.5]. *)
Definition vnorm (v : point) : result (carrier M) :=
  x2 <- num_pow_2 M (fst v) ;;
  y2 <- num_pow_2 M (snd v) ;;
  num_pow_0_5 M (x2 + y2)%py.

(** [TA = (-BA.y, BA.x)] for [BA = B - A]. *)
Definition tangent (A B : point) : point :=
  let BA := vsub B A in ((- snd BA)%py, fst BA).

(** The element with the polygon [[A+TA, A, B, B+TA, A+TA, RT, B+TA]],
    where [RT = A + TA + 0.5*BA + rh * TA / |TA|] and [rh = |TA| * 0.33],
    and the depth [d]. *)
Definition spec_element (A B : point) (d : Z) : result TreeElement :=
  let BA := vsub B A in
  let TA := tangent A B in
  base_length <- vnorm TA ;;
  let rh := (base_length * num_0_33 M)%py in
  roof <- vdiv (vscale rh TA) base_length ;;
  let RT := vadd (vadd (vadd A TA) (vscale (num_0_5 M) BA)) roof in
  Ok {| polygon := [vadd A TA; A; B; vadd B TA; vadd A TA; RT; vadd B TA];
        depth := d |}.

(** *** The generations of work items *)

(** [create_new_element] returns an element for the item. *)
Definition buildable (item : work_item) : Prop :=
  exists e, create_new_element (fst (fst item)) (snd (fst item)) (snd item) = Ok e.

(** The element of a buildable work item. *)
Definition element_of (item : work_item) : TreeElement :=
  let '(a, b, d) := item in
  match create_new_element a b d with
  | Ok e => e
  | Raise _ => {| polygon := []; depth := d |}
  end.

(** The two work items derived from a buildable item, in the order of
    their enqueueing. *)
Definition children (item : work_item) : list work_item :=
  let '(a, b, d) := item in
  let p := polygon (element_of item) in
  [ (nth 4 p a, nth 5 p a, (d + 1)%Z);
    (nth 5 p a, nth 6 p a, (d + 1)%Z) ].

(** The items of [levels + 1] generations, generation after generation,
    starting from the generation [items]. *)
Fixpoint bfs_items (levels : nat) (items : list work_item) : list work_item :=
  items ++ match levels with
           | O => []
           | S k => bfs_items k (flat_map children items)
           end.

(** The items of generation [k], counted from the generation [items]. *)
Fixpoint generation (k : nat) (items : list work_item) : list work_item :=
  match k with
  | O => items
  | S k' => generation k' (flat_map children items)
  end.

(** A work item moved [k] generations down. *)
Definition deepen_item (k : Z) (item : work_item) : work_item :=
  let '(a, b, d) := item in (a, b, (d + k)%Z).

(** An element moved [k] generations down. *)
Definition deepen (k : Z) (e : TreeElement) : TreeElement :=
  {| polygon := polygon e; depth := (depth e + k)%Z |}.

(** Number of elements of [l] whose depth field is [k]. *)
Definition count_depth (k : Z) (l : list TreeElement) : nat :=
  length (filter (fun e => (depth e =? k)%Z) l).

(** Number of items of depth [k] among the generations. *)
Definition count_items (k : Z) (items : list work_item) : nat :=
  length (filter (fun it => (snd it =? k)%Z) items).

End Generator.

Arguments polygon {M} _.
Arguments depth {M} _.
Arguments mkTreeElement {M} _ _.
Arguments create_new_element {M} a b depth.
Arguments loop_body {M} max_depth item front all_elements.
Arguments item_weight {M} max_depth item.
Arguments front_weight {M} max_depth front.
Arguments while_loop {M} max_depth front all_elements.
Arguments create_tree {M} a b max_depth.
Arguments loop_runs {M} max_depth _ _ _ _ _.
Arguments runs_exit {M} max_depth acc.
Arguments runs_raise {M} max_depth item front acc e _.
Arguments runs_iter {M} max_depth item front acc front' acc' n q r _ _.
Arguments loop_reaches {M} max_depth _ _.
Arguments reaches_here {M} max_depth st.
Arguments reaches_step {M} max_depth item front acc st' st'' _ _.
Arguments item_leaves {M} max_depth item.
Arguments front_leaves {M} max_depth front.
Arguments vadd {M} p q.
Arguments vsub {M} p q.
Arguments vscale {M} k p.
Arguments vdiv {M} p k.
Arguments vnorm {M} v.
Arguments tangent {M} A B.
Arguments spec_element {M} A B d.
Arguments buildable {M} item.
Arguments element_of {M} item.
Arguments children {M} item.
Arguments bfs_items {M} levels items.
Arguments generation {M} k items.
Arguments deepen_item {M} k item.
Arguments deepen {M} k e.
Arguments count_depth {M} k l.
Arguments count_items {M} k items.

(** ** [main], up to the drawing *)

(** The canvas size; [/] turns it into a float. *)
Definition CANVAS_WIDTH : float := 800%float.
Definition CANVAS_HEIGHT : float := 800%float.

(** The computing part of [main]: the first base, at the top of the image,
    and the elements handed to the drawing loop. *)
Definition main_all_elements : result (list (TreeElement float_arith)) :=
  let first_base_width := 220%float in
  half_width <- float_div CANVAS_WIDTH 2%float ;;
  half_base <- float_div first_base_width 2%float ;;
  let a : point float_arith := (PrimFloat.sub half_width half_base, 0%float) in
  let b : point float_arith := (PrimFloat.add half_width half_base, 0%float) in
  create_tree a b 12.

(** A float that is neither infinite nor a NaN. *)
Definition finite_float (x : float) : Prop :=
  match Prim2SF x with
  | S754_zero _ | S754_finite _ _ _ => True
  | _ => False
  end.

(** The polygon of a base with distinct points in exact arithmetic,
    coordinate by coordinate. *)
Definition real_polygon (a b : point real_arith) : list (point real_arith) :=
  [ (fst a - (snd b - snd a), snd a + (fst b - fst a))%R;
    a;
    b;
    (fst b - (snd b - snd a), snd b + (fst b - fst a))%R;
    (fst a - (snd b - snd a), snd a + (fst b - fst a))%R;
    (fst a - (snd b - snd a) + 0.5 * (fst b - fst a) - 0.33 * (snd b - snd a),
     snd a + (fst b - fst a) + 0.5 * (snd b - snd a) + 0.33 * (fst b - fst a))%R;
    (fst b - (snd b - snd a), snd b + (fst b - fst a))%R ].

Definition nondegenerate (item : work_item real_arith) : Prop :=
  fst (fst item) <> snd (fst item).

(** ** Inputs in IEEE binary64 *)

(** A base whose squared length underflows. *)
Definition tiny_a : point float_arith := (0%float, 0%float).
Definition tiny_b : point float_arith := (1e-200%float, 0%float).

(** A base of length 2 at distance [10^16] of the origin, where the
    spacing of the floats is 2. *)
Definition far_a : point float_arith := (1e16%float, 1e16%float).
Definition far_b : point float_arith := (10000000000000002%float, 1e16%float).

(** The base of the scenarios of the specification. *)
Definition scenario_a : point float_arith := (0%float, 0%float).
Definition scenario_b : point float_arith := (10%float, 0%float).

(** Proves [lhs = ?v] by computing [lhs]. *)
Ltac compute_lhs :=
  match goal with
  | |- ?lhs = _ =>
      let v := eval vm_compute in lhs in
      transitivity v; [vm_compute; reflexivity|reflexivity]
  end.

(** * Properties that hold in every arithmetic *)

Section Traversal.

Context {M : arithmetic}.

Implicit Types (a b : point M) (d D : Z) (item : work_item M)
  (front items xs ys : list (work_item M)) (acc : list (TreeElement M)).

(** ** One element *)

(** The shape of a built element. *)
Lemma create_new_element_polygon a b d (e : TreeElement M) :
  create_new_element a b d = Ok e ->
  exists p0 p3 p5, polygon e = [p0; a; b; p3; p0; p5; p3] /\ depth e = d.
Proof.
  unfold create_new_element.
  destruct (num_pow_2 M _) as [x2|]; cbn [bind]; [|discriminate].
  destruct (num_pow_2 M _) as [y2|]; cbn [bind]; [|discriminate].
  destruct (num_pow_0_5 M _) as [bl|]; cbn [bind]; [|discriminate].
  destruct (num_div M _ bl) as [qx|]; cbn [bind]; [|discriminate].
  destruct (num_div M _ bl) as [qy|]; cbn [bind]; [|discriminate].
  intros [= <-]. cbn [polygon depth]. eauto.
Qed.

(** The depth is only recorded: it plays no part in the computation. *)
Lemma create_new_element_any_depth a b d d' :
  create_new_element a b d' =
  match create_new_element a b d with
  | Ok e => Ok {| polygon := polygon e; depth := d' |}
  | Raise x => Raise x
  end.
Proof.
  unfold create_new_element.
  destruct (num_pow_2 M _) as [x2|]; cbn [bind]; [|reflexivity].
  destruct (num_pow_2 M _) as [y2|]; cbn [bind]; [|reflexivity].
  destruct (num_pow_0_5 M _) as [bl|]; cbn [bind]; [|reflexivity].
  destruct (num_div M _ bl) as [qx|]; cbn [bind]; [|reflexivity].
  destruct (num_div M _ bl) as [qy|]; cbn [bind]; reflexivity.
Qed.

Lemma element_of_built a b d (e : TreeElement M) :
  create_new_element a b d = Ok e -> element_of (a, b, d) = e.
Proof. intros He. unfold element_of. now rewrite He. Qed.

Lemma buildable_element_of a b d :
  buildable (a, b, d) -> create_new_element a b d = Ok (element_of (a, b, d)).
Proof.
  intros (e & He). cbn [fst snd] in He. now rewrite (element_of_built _ _ _ _ He).
Qed.

Lemma depth_element_of item : depth (element_of item) = snd item.
Proof.
  destruct item as [[a b] d]. unfold element_of. cbn [snd].
  destruct (create_new_element a b d) as [e|] eqn:He; [|reflexivity].
  destruct (create_new_element_polygon _ _ _ _ He) as (p0 & p3 & p5 & _ & Hd).
  exact Hd.
Qed.

Lemma map_depth_element_of items :
  map (@depth M) (map element_of items) = map snd items.
Proof.
  rewrite map_map. apply map_ext. exact depth_element_of.
Qed.

(** The children of a buildable item are the last three points of its
    polygon, two by two. *)
Lemma children_built a b d (e : TreeElement M) (p0 p1 p2 p3 p4 p5 p6 : point M) :
  create_new_element a b d = Ok e ->
  polygon e = [p0; p1; p2; p3; p4; p5; p6] ->
  children (a, b, d) = [(p4, p5, (d + 1)%Z); (p5, p6, (d + 1)%Z)].
Proof.
  intros He Hp. unfold children. rewrite (element_of_built _ _ _ _ He), Hp.
  reflexivity.
Qed.

Lemma children_any_depth a b d d' :
  children (a, b, d') =
  map (deepen_item (d' - d)) (children (a, b, d)).
Proof.
  unfold children, element_of.
  rewrite (create_new_element_any_depth a b d d').
  destruct (create_new_element a b d) as [e|]; cbn [polygon map deepen_item];
    replace (d + 1 + (d' - d))%Z with (d' + 1)%Z by lia; reflexivity.
Qed.

Lemma buildable_any_depth a b d d' : buildable (a, b, d) -> buildable (a, b, d').
Proof.
  intros (e & He). cbn [fst snd] in He. unfold buildable. cbn [fst snd].
  rewrite (create_new_element_any_depth a b d d'), He. eauto.
Qed.

(** ** One execution of the loop body *)

Lemma getitem_last_three {A : Type} (p0 p1 p2 p3 p4 p5 p6 : A) :
  let l := [p0; p1; p2; p3; p4; p5; p6] in
  getitem l (-3) = Ok p4 /\ getitem l (-2) = Ok p5 /\ getitem l (-1) = Ok p6.
Proof. repeat split. Qed.

Lemma loop_body_expand D a b d front acc :
  buildable (a, b, d) -> (d < D)%Z ->
  loop_body D (a, b, d) front acc =
  Ok (front ++ children (a, b, d), acc ++ [element_of (a, b, d)]).
Proof.
  intros (e & He) Hlt. cbn [fst snd] in He. unfold loop_body.
  rewrite He. cbn [bind].
  destruct (Z.geb_spec d D) as [Hge|_]; [lia|].
  destruct (create_new_element_polygon _ _ _ _ He) as (p0 & p3 & p5 & Hp & _).
  rewrite (children_built _ _ _ _ _ _ _ _ _ _ _ He Hp).
  rewrite (element_of_built _ _ _ _ He), Hp.
  destruct (getitem_last_three p0 a b p3 p0 p5 p3) as (-> & -> & ->).
  cbn [bind]. now rewrite <- app_assoc.
Qed.

Lemma loop_body_leaf D a b d front acc :
  buildable (a, b, d) -> (D <= d)%Z ->
  loop_body D (a, b, d) front acc = Ok (front, acc ++ [element_of (a, b, d)]).
Proof.
  intros (e & He) Hle. cbn [fst snd] in He. unfold loop_body.
  rewrite He, (element_of_built _ _ _ _ He). cbn [bind].
  destruct (Z.geb_spec d D) as [_|Hlt]; [reflexivity|lia].
Qed.

(** The loop body raises exactly what [create_new_element] raises: the
    three indexings of the polygon never fail. *)
Lemma loop_body_raise D a b d front acc (e : exn) :
  loop_body D (a, b, d) front acc = Raise e <->
  create_new_element a b d = Raise e.
Proof.
  unfold loop_body.
  destruct (create_new_element a b d) as [el|x] eqn:He; cbn [bind].
  - split; [|discriminate].
    destruct (Z.geb_spec d D) as [_|_]; [discriminate|].
    destruct (create_new_element_polygon _ _ _ _ He) as (p0 & p3 & p5 & -> & _).
    destruct (getitem_last_three p0 a b p3 p0 p5 p3) as (-> & -> & ->).
    cbn [bind]. discriminate.
  - split; intros [= ->]; reflexivity.
Qed.

Lemma loop_body_ok_inv D item front acc front' acc' :
  loop_body D item front acc = Ok (front', acc') ->
  buildable item /\
  exists e, acc' = acc ++ [e] /\
    (((snd item < D)%Z /\
      exists c1 c2, front' = front ++ [c1; c2] /\
                    snd c1 = (snd item + 1)%Z /\ snd c2 = (snd item + 1)%Z)
     \/ ((D <= snd item)%Z /\ front' = front)).
Proof.
  destruct item as [[a b] d]. unfold loop_body, buildable. cbn [fst snd].
  destruct (create_new_element a b d) as [el|e]; cbn [bind]; [|discriminate].
  intros H. split; [eauto|]. revert H.
  destruct (Z.geb_spec d D) as [Hge|Hlt].
  - intros [= <- <-]. exists el. split; [reflexivity|]. right. split; [lia|reflexivity].
  - destruct (getitem (polygon el) (-3)) as [a1|]; cbn [bind]; [|discriminate].
    destruct (getitem (polygon el) (-2)) as [b1|]; cbn [bind]; [|discriminate].
    destruct (getitem (polygon el) (-1)) as [b2|]; cbn [bind]; [|discriminate].
    intros [= <- <-]. exists el. split; [reflexivity|]. left. split; [exact Hlt|].
    exists (a1, b1, (d + 1)%Z), (b1, b2, (d + 1)%Z).
    rewrite <- app_assoc. now repeat split.
Qed.

(** ** The loop *)

Lemma while_loop_nil D acc : while_loop D [] acc = Ok acc.
Proof. now simp while_loop. Qed.

Lemma while_loop_cons D item front acc :
  while_loop D (item :: front) acc =
  match loop_body D item front acc with
  | Ok (front', acc') => while_loop D front' acc'
  | Raise e => Raise e
  end.
Proof.
  simp while_loop.
  generalize (inspect (loop_body D item front acc)).
  intros [[[front' acc']|e] Hr]; simp while_loop; now rewrite Hr.
Qed.

Lemma item_weight_pos D item : (0 < item_weight D item)%nat.
Proof.
  unfold item_weight.
  assert (H := Nat.pow_nonzero 2 (Z.to_nat (D - snd item))).
  rewrite Nat.pow_succ_r'. lia.
Qed.

Lemma front_weight_cons D item front :
  front_weight D (item :: front) = (item_weight D item + front_weight D front)%nat.
Proof. reflexivity. Qed.

Lemma front_weight_app D xs ys :
  front_weight D (xs ++ ys) = (front_weight D xs + front_weight D ys)%nat.
Proof. unfold front_weight. now rewrite map_app, list_sum_app. Qed.

Lemma loop_body_decreases D item front acc front' acc' :
  loop_body D item front acc = Ok (front', acc') ->
  (front_weight D front' < front_weight D (item :: front))%nat.
Proof.
  intros Hb. apply loop_body_ok_inv in Hb.
  destruct Hb as (_ & e & _ & [(Hlt & c1 & c2 & -> & H1 & H2)|(_ & ->)]);
    rewrite front_weight_cons.
  - rewrite front_weight_app, !front_weight_cons.
    change (front_weight D []) with 0%nat.
    unfold item_weight. rewrite H1, H2.
    replace (Z.to_nat (D - snd item))
      with (S (Z.to_nat (D - (snd item + 1)))) by lia.
    assert (H := Nat.pow_nonzero 2 (Z.to_nat (D - (snd item + 1)))).
    rewrite !Nat.pow_succ_r'. lia.
  - assert (H := item_weight_pos D item). lia.
Qed.

(** Every exception of the loop is an exception of [create_new_element]. *)
Lemma while_loop_raise_source D : forall front acc (e : exn),
  while_loop D front acc = Raise e ->
  exists a b d, create_new_element a b d = Raise e.
Proof.
  intros front. remember (front_weight D front) as w eqn:Hw.
  revert front Hw. induction w as [w IH] using lt_wf_ind.
  intros [|[[a b] d] front] Hw acc e He.
  - rewrite while_loop_nil in He. discriminate.
  - rewrite while_loop_cons in He.
    destruct (loop_body D (a, b, d) front acc) as [[front' acc']|x] eqn:Hb.
    + assert (Hdec := loop_body_decreases _ _ _ _ _ _ Hb).
      assert (Hlt : (front_weight D front' < w)%nat) by lia.
      exact (IH _ Hlt front' eq_refl acc' e He).
    + injection He as ->. apply loop_body_raise in Hb. eauto.
Qed.

(** A run of items that are all expanded: their elements are appended and
    their children enqueued behind the rest of the queue. *)
Lemma while_loop_sweep_expand D xs : forall ys acc,
  Forall buildable xs -> Forall (fun it => (snd it < D)%Z) xs ->
  while_loop D (xs ++ ys) acc =
  while_loop D (ys ++ flat_map children xs) (acc ++ map element_of xs).
Proof.
  induction xs as [|[[a b] d] xs IH]; intros ys acc Hnd Hd.
  - cbn. now rewrite !app_nil_r.
  - inversion_clear Hnd as [|? ? Hab Hnd']. inversion_clear Hd as [|? ? Hlt Hd'].
    cbn [app]. rewrite while_loop_cons.
    rewrite (loop_body_expand D a b d _ _ Hab Hlt).
    rewrite <- app_assoc. rewrite IH by assumption.
    cbn [flat_map map]. now rewrite <- !app_assoc.
Qed.

(** The run of a loop that does not raise only meets buildable items. *)
Lemma while_loop_ok_prefix_buildable D xs : forall ys acc l,
  while_loop D (xs ++ ys) acc = Ok l -> Forall buildable xs.
Proof.
  induction xs as [|[[a b] d] xs IH]; intros ys acc l Hl; [constructor|].
  cbn [app] in Hl. rewrite while_loop_cons in Hl.
  destruct (loop_body D (a, b, d) (xs ++ ys) acc) as [[front' acc']|x] eqn:Hb;
    [|discriminate].
  apply loop_body_ok_inv in Hb.
  destruct Hb as (Hbuild & e & -> & [(_ & c1 & c2 & -> & _)|(_ & ->)]);
    constructor; try exact Hbuild.
  - rewrite <- app_assoc in Hl. exact (IH _ _ _ Hl).
  - exact (IH _ _ _ Hl).
Qed.

(** A run of items at the maximum depth: the loop ends with their
    elements appended. *)
Lemma while_loop_sweep_leaves D xs : forall acc,
  Forall buildable xs -> Forall (fun it => (D <= snd it)%Z) xs ->
  while_loop D xs acc = Ok (acc ++ map element_of xs).
Proof.
  induction xs as [|[[a b] d] xs IH]; intros acc Hnd Hd.
  - cbn. now rewrite while_loop_nil, app_nil_r.
  - inversion_clear Hnd as [|? ? Hab Hnd']. inversion_clear Hd as [|? ? Hle Hd'].
    rewrite while_loop_cons, (loop_body_leaf D a b d _ _ Hab Hle).
    rewrite IH by assumption. cbn [map]. now rewrite <- app_assoc.
Qed.

Lemma flat_map_children_depth d items :
  Forall (fun it => snd it = d) items ->
  Forall (fun it => snd it = (d + 1)%Z) (flat_map children items).
Proof.
  induction 1 as [|[[a b] d'] items Hit _ IH]; cbn [flat_map]; [constructor|].
  cbn in Hit. subst d'. repeat constructor. exact IH.
Qed.

(** The loop, generation by generation. *)
Lemma while_loop_generations D (levels : nat) : forall items acc d,
  Forall buildable (bfs_items levels items) ->
  Forall (fun it => snd it = d) items ->
  (D - d = Z.of_nat levels)%Z ->
  while_loop D items acc = Ok (acc ++ map element_of (bfs_items levels items)).
Proof.
  induction levels as [|k IH]; intros items acc d Hnd Hd Hlev.
  - cbn [bfs_items] in *. rewrite app_nil_r in *.
    apply while_loop_sweep_leaves; [exact Hnd|].
    eapply Forall_impl; [|exact Hd]. cbn. intros it ->. lia.
  - cbn [bfs_items] in *. apply Forall_app in Hnd. destruct Hnd as [Hnd Hnext].
    rewrite map_app, app_assoc.
    rewrite <- (app_nil_r items) at 1.
    rewrite while_loop_sweep_expand; [|exact Hnd|].
    + cbn [app]. apply (IH _ _ (d + 1)%Z).
      * exact Hnext.
      * now apply flat_map_children_depth.
      * lia.
    + eapply Forall_impl; [|exact Hd]. cbn. intros it ->. lia.
Qed.

Lemma while_loop_generations_inv D (levels : nat) : forall items acc d l,
  while_loop D items acc = Ok l ->
  Forall (fun it => snd it = d) items ->
  (D - d = Z.of_nat levels)%Z ->
  Forall buildable (bfs_items levels items).
Proof.
  induction levels as [|k IH]; intros items acc d l Hl Hd Hlev.
  - cbn [bfs_items]. rewrite app_nil_r.
    rewrite <- (app_nil_r items) in Hl.
    exact (while_loop_ok_prefix_buildable _ _ _ _ _ Hl).
  - cbn [bfs_items]. rewrite <- (app_nil_r items) in Hl.
    assert (Hnd := while_loop_ok_prefix_buildable _ _ _ _ _ Hl).
    apply Forall_app. split; [exact Hnd|].
    rewrite while_loop_sweep_expand in Hl; [|exact Hnd|].
    + cbn [app] in Hl. apply (IH _ _ (d + 1)%Z _ Hl); [|lia].
      now apply flat_map_children_depth.
    + eapply Forall_impl; [|exact Hd]. cbn. intros it ->. lia.
Qed.

Lemma create_tree_bfs a b D :
  (0 <= D)%Z ->
  Forall buildable (bfs_items (Z.to_nat D) [(a, b, 0%Z)]) ->
  create_tree a b D = Ok (map element_of (bfs_items (Z.to_nat D) [(a, b, 0%Z)])).
Proof.
  intros HD Hnd. unfold create_tree.
  rewrite (while_loop_generations D (Z.to_nat D) _ _ 0%Z); [reflexivity| | |lia].
  - exact Hnd.
  - repeat constructor.
Qed.

(** What a returned tree is made of. *)
Lemma create_tree_ok_inv a b D (l : list (TreeElement M)) :
  (0 <= D)%Z -> create_tree a b D = Ok l ->
  Forall buildable (bfs_items (Z.to_nat D) [(a, b, 0%Z)]) /\
  l = map element_of (bfs_items (Z.to_nat D) [(a, b, 0%Z)]).
Proof.
  intros HD Hl.
  assert (Hnd : Forall buildable (bfs_items (Z.to_nat D) [(a, b, 0%Z)])).
  { apply (while_loop_generations_inv D (Z.to_nat D) _ [] 0%Z l Hl); [|lia].
    repeat constructor. }
  split; [exact Hnd|].
  rewrite (create_tree_bfs a b D HD Hnd) in Hl. now injection Hl.
Qed.

Lemma create_tree_root_raises a b D (e : exn) :
  create_new_element a b 0 = Raise e -> create_tree a b D = Raise e.
Proof.
  intros He. unfold create_tree. rewrite while_loop_cons.
  now rewrite (proj2 (loop_body_raise D a b 0 _ _ e) He).
Qed.

Lemma create_tree_negative_depth a b D :
  (D < 0)%Z ->
  create_tree a b D = (e <- create_new_element a b 0 ;; Ok [e]).
Proof.
  intros HD. unfold create_tree. rewrite while_loop_cons. unfold loop_body.
  destruct (create_new_element a b 0) as [el|e]; cbn [bind]; [|reflexivity].
  destruct (Z.geb_spec 0 D) as [_|Hlt]; [|lia].
  now rewrite while_loop_nil.
Qed.

(** ** Shape of the generations *)

Lemma length_flat_map_children items :
  length (flat_map children items) = (2 * length items)%nat.
Proof.
  induction items as [|[[a b] d] items IH]; [reflexivity|].
  cbn [flat_map children app length]. lia.
Qed.

Lemma length_bfs_items (levels : nat) : forall items,
  length (bfs_items levels items) = (length items * (2 ^ S levels - 1))%nat.
Proof.
  induction levels as [|k IH]; intros items; cbn [bfs_items]; rewrite length_app.
  - cbn. lia.
  - rewrite IH, length_flat_map_children.
    assert (H := Nat.pow_nonzero 2 (S k)).
    rewrite (Nat.pow_succ_r' 2 (S k)). nia.
Qed.

(** Depths of the items: generation [j] carries depth [d + j]. *)
Lemma bfs_items_depth_range (levels : nat) : forall items d,
  Forall (fun it => snd it = d) items ->
  Forall (fun it => (d <= snd it <= d + Z.of_nat levels)%Z)
         (bfs_items levels items).
Proof.
  induction levels as [|k IH]; intros items d Hd; cbn [bfs_items];
    apply Forall_app; split.
  - eapply Forall_impl; [|exact Hd]. cbn. lia.
  - constructor.
  - eapply Forall_impl; [|exact Hd]. cbn. lia.
  - eapply Forall_impl; [|apply (IH _ (d + 1)%Z), flat_map_children_depth, Hd].
    cbn. lia.
Qed.

Lemma StronglySorted_app {A : Type} (R : A -> A -> Prop) (l1 l2 : list A) :
  StronglySorted R l1 -> StronglySorted R l2 ->
  (forall x y, In x l1 -> In y l2 -> R x y) ->
  StronglySorted R (l1 ++ l2).
Proof.
  induction 1 as [|x l1 Hs IH Hx]; intros Hl2 Hcross; [exact Hl2|].
  cbn [app]. constructor.
  - apply IH; [exact Hl2|]. intros; apply Hcross; [now right|assumption].
  - apply Forall_app. split; [exact Hx|].
    apply Forall_forall. intros y Hy. apply Hcross; [now left|exact Hy].
Qed.

Lemma StronglySorted_constant (d : Z) (l : list Z) :
  Forall (fun x => x = d) l -> StronglySorted Z.le l.
Proof.
  induction 1 as [|x l Hx Hl IH]; constructor; [exact IH|].
  eapply Forall_impl; [|exact Hl]. cbn. lia.
Qed.

Lemma bfs_items_depth_sorted (levels : nat) : forall items d,
  Forall (fun it => snd it = d) items ->
  StronglySorted Z.le (map snd (bfs_items levels items)).
Proof.
  induction levels as [|k IH]; intros items d Hd; cbn [bfs_items];
    rewrite map_app.
  - cbn [map]. rewrite app_nil_r. apply (StronglySorted_constant d).
    now apply Forall_map.
  - apply StronglySorted_app.
    + apply (StronglySorted_constant d). now apply Forall_map.
    + apply (IH _ (d + 1)%Z), flat_map_children_depth, Hd.
    + intros x y Hx Hy.
      apply in_map_iff in Hx. destruct Hx as (ix & <- & Hix).
      apply in_map_iff in Hy. destruct Hy as (iy & <- & Hiy).
      rewrite Forall_forall in Hd. rewrite (Hd ix Hix).
      assert (Hr := bfs_items_depth_range k _ (d + 1)%Z
                      (flat_map_children_depth d items
                         (proj2 (Forall_forall _ _) Hd))).
      rewrite Forall_forall in Hr. specialize (Hr iy Hiy). lia.
Qed.

Lemma StronglySorted_nth_error (l : list Z) :
  StronglySorted Z.le l ->
  forall i j x y, (i <= j)%nat ->
    nth_error l i = Some x -> nth_error l j = Some y -> (x <= y)%Z.
Proof.
  induction 1 as [|z l Hs IH Hz]; intros i j x y Hij Hi Hj.
  - destruct i; discriminate.
  - destruct i as [|i], j as [|j]; cbn in Hi, Hj.
    + injection Hi as <-. injection Hj as <-. lia.
    + injection Hi as <-. apply nth_error_In in Hj.
      rewrite Forall_forall in Hz. now apply Hz.
    + lia.
    + apply (IH i j); [lia|assumption..].
Qed.

Lemma count_depth_element_of (k : Z) items :
  count_depth k (map element_of items) = count_items k items.
Proof.
  unfold count_depth, count_items.
  induction items as [|it items IH]; [reflexivity|].
  cbn [map filter]. rewrite depth_element_of.
  destruct (snd it =? k)%Z; cbn [length]; now rewrite IH.
Qed.

Lemma count_items_app (k : Z) xs ys :
  count_items (M:=M) k (xs ++ ys) = (count_items k xs + count_items k ys)%nat.
Proof. unfold count_items. now rewrite filter_app, length_app. Qed.

Lemma count_items_same (k d : Z) items :
  Forall (fun it => snd it = d) items ->
  count_items k items = if (d =? k)%Z then length items else 0%nat.
Proof.
  unfold count_items.
  induction 1 as [|it items Hit _ IH]; [now destruct (d =? k)%Z|].
  cbn [filter]. rewrite Hit. destruct (d =? k)%Z; cbn [length]; now rewrite IH.
Qed.

Lemma count_items_none (k : Z) items :
  Forall (fun it => snd it <> k) items -> count_items k items = 0%nat.
Proof.
  unfold count_items.
  induction 1 as [|it items Hit _ IH]; [reflexivity|].
  cbn [filter]. now destruct (Z.eqb_spec (snd it) k).
Qed.

Lemma count_items_bfs (k : Z) (levels : nat) : forall items d,
  Forall (fun it => snd it = d) items ->
  (d <= k <= d + Z.of_nat levels)%Z ->
  count_items k (bfs_items levels items)
  = (length items * 2 ^ Z.to_nat (k - d))%nat.
Proof.
  induction levels as [|n IH]; intros items d Hd Hk; cbn [bfs_items];
    rewrite count_items_app, (count_items_same k d items Hd).
  - replace k with d by lia. rewrite Z.eqb_refl, Z.sub_diag. cbn. lia.
  - destruct (Z.eqb_spec d k) as [->|Hne].
    + assert (Hr := bfs_items_depth_range n _ (k + 1)%Z
                      (flat_map_children_depth k items Hd)).
      assert (Hz : count_items k (bfs_items n (flat_map children items)) = 0%nat).
      { apply count_items_none. eapply Forall_impl; [|exact Hr]. cbn. lia. }
      rewrite Hz, Z.sub_diag. cbn. lia.
    + rewrite (IH _ (d + 1)%Z) by (auto using flat_map_children_depth; lia).
      rewrite length_flat_map_children.
      replace (Z.to_nat (k - d)) with (S (Z.to_nat (k - (d + 1)))) by lia.
      rewrite Nat.pow_succ_r'. unfold work_item. nia.
Qed.

(** ** Positions of the children *)

Lemma nth_error_flat_map_children items : forall (t : nat) item,
  nth_error items t = Some item ->
  exists c1 c2, children item = [c1; c2] /\
    nth_error (flat_map children items) (2 * t) = Some c1 /\
    nth_error (flat_map children items) (2 * t + 1) = Some c2.
Proof.
  induction items as [|[[a b] d] items IH]; intros t it Ht.
  - destruct t; discriminate.
  - destruct t as [|t].
    + injection Ht as <-. cbn. eauto.
    + cbn in Ht. destruct (IH t it Ht) as (c1 & c2 & Hc & H1 & H2).
      exists c1, c2. split; [exact Hc|].
      replace (2 * S t)%nat with (S (S (2 * t))) by lia.
      replace (S (S (2 * t)) + 1)%nat with (S (S (2 * t + 1))) by lia.
      cbn [flat_map children app nth_error]. now split.
Qed.

(** In the sequence of the generations that starts with [m] items, the
    children of the item at position [t] are at positions [2 * t + m] and
    [2 * t + m + 1]. *)
Lemma bfs_items_children (levels : nat) : forall items (t : nat) item,
  nth_error (bfs_items levels items) t = Some item ->
  (2 * t + length items + 1 < length (bfs_items levels items))%nat ->
  exists c1 c2, children item = [c1; c2] /\
    nth_error (bfs_items levels items) (2 * t + length items) = Some c1 /\
    nth_error (bfs_items levels items) (2 * t + length items + 1) = Some c2.
Proof.
  induction levels as [|k IH]; intros items t it Ht Hlen.
  - cbn [bfs_items] in Hlen. rewrite length_app in Hlen. cbn in Hlen. lia.
  - cbn [bfs_items] in *. rewrite length_app in Hlen.
    set (next := flat_map children items) in *.
    assert (Hnext : length next = (2 * length items)%nat)
      by apply length_flat_map_children.
    rewrite !(nth_error_app2 items) by lia.
    destruct (Nat.lt_ge_cases t (length items)) as [Hin|Hout].
    + rewrite nth_error_app1 in Ht by exact Hin.
      destruct (nth_error_flat_map_children items t it Ht) as (c1 & c2 & Hc & H1 & H2).
      exists c1, c2. split; [exact Hc|].
      replace (2 * t + length items - length items)%nat with (2 * t)%nat by lia.
      replace (2 * t + length items + 1 - length items)%nat with (2 * t + 1)%nat by lia.
      destruct k; cbn [bfs_items]; fold next;
        rewrite !nth_error_app1 by lia; now split.
    + rewrite nth_error_app2 in Ht by exact Hout.
      destruct (IH next (t - length items)%nat it Ht) as (c1 & c2 & Hc & H1 & H2);
        [lia|].
      exists c1, c2. split; [exact Hc|].
      replace (2 * t + length items - length items)%nat
        with (2 * (t - length items) + length next)%nat by lia.
      replace (2 * t + length items + 1 - length items)%nat
        with (2 * (t - length items) + length next + 1)%nat by lia.
      now split.
Qed.

(** ** Runs of the loop *)

Lemma loop_runs_while_loop D front acc n q (r : result (list (TreeElement M))) :
  loop_runs D front acc n q r -> while_loop D front acc = r.
Proof.
  induction 1 as [acc|item front acc e He|item front acc front' acc' n q r Hb _ IH].
  - apply while_loop_nil.
  - now rewrite while_loop_cons, He.
  - now rewrite while_loop_cons, Hb.
Qed.

Lemma loop_runs_exit_empty D front acc n q (l : list (TreeElement M)) :
  loop_runs D front acc n q (Ok l) -> q = [].
Proof.
  remember (Ok l) as r eqn:Hr. induction 1; auto; discriminate.
Qed.

Lemma loop_runs_deterministic D front acc n q (r : result (list (TreeElement M))) :
  loop_runs D front acc n q r ->
  forall n' q' r', loop_runs D front acc n' q' r' -> n' = n /\ q' = q /\ r' = r.
Proof.
  induction 1 as [acc|item front acc e He|item front acc front' acc' n q r Hb _ IH];
    intros n' q' r' Hrun'.
  - inversion Hrun'; subst. auto.
  - inversion Hrun' as [|? ? ? e' He'|? ? ? f'' a'' ? ? ? Hb' _]; subst.
    + rewrite He in He'. injection He' as <-. auto.
    + rewrite He in Hb'. discriminate.
  - inversion Hrun' as [|? ? ? e' He'|? ? ? f'' a'' m ? ? Hb' Hrest]; subst.
    + rewrite Hb in He'. discriminate.
    + rewrite Hb in Hb'. injection Hb' as <- <-.
      destruct (IH _ _ _ Hrest) as (-> & -> & ->). auto.
Qed.

(** Every start state has a run, no longer than its weight. *)
Lemma loop_runs_total D : forall front acc,
  exists n q r, loop_runs D front acc n q r /\ (n <= front_weight D front)%nat.
Proof.
  intros front. remember (front_weight D front) as w eqn:Hw.
  revert front Hw. induction w as [w IH] using lt_wf_ind.
  intros [|item front] Hw acc.
  - exists 0%nat, [], (Ok acc). split; [constructor|lia].
  - destruct (loop_body D item front acc) as [[front' acc']|e] eqn:Hb.
    + assert (Hdec := loop_body_decreases _ _ _ _ _ _ Hb).
      assert (Hlt : (front_weight D front' < w)%nat) by lia.
      destruct (IH _ Hlt front' eq_refl acc') as (n & q & r & Hrun & Hn).
      exists (S n), q, r. split; [econstructor; eassumption|lia].
    + exists 1%nat, front, (Raise e). split; [now constructor|].
      assert (Hpos := item_weight_pos D item).
      rewrite Hw, front_weight_cons. lia.
Qed.

Lemma root_weight a b D :
  Z.of_nat (front_weight D [(a, b, 0%Z)]) = (2 ^ (Z.max 0 D + 1) - 1)%Z.
Proof.
  unfold front_weight.
  change (list_sum (map (item_weight D) [(a, b, 0%Z)]))
    with (item_weight D (a, b, 0%Z) + 0)%nat.
  unfold item_weight. cbn [snd]. rewrite Nat.add_0_r, Z.sub_0_r.
  set (k := Z.to_nat D).
  assert (H : (1 <= 2 ^ S k)%nat).
  { assert (H := Nat.pow_nonzero 2 (S k)). lia. }
  rewrite Nat2Z.inj_sub by exact H. rewrite Nat2Z.inj_pow.
  replace (Z.of_nat (S k)) with (Z.max 0 D + 1)%Z by lia. reflexivity.
Qed.

Lemma loop_runs_length D front acc n q (l : list (TreeElement M)) :
  loop_runs D front acc n q (Ok l) -> length l = (length acc + n)%nat.
Proof.
  remember (Ok l) as r eqn:Hr.
  induction 1 as [acc|item front acc e He|item front acc front' acc' n q r Hb _ IH].
  - injection Hr as ->. lia.
  - discriminate.
  - apply loop_body_ok_inv in Hb. destruct Hb as (_ & e & -> & _).
    rewrite (IH Hr), length_app. cbn [length]. lia.
Qed.

Lemma create_tree_length a b D (l : list (TreeElement M)) :
  create_tree a b D = Ok l ->
  Z.of_nat (length l) = (2 ^ (Z.max 0 D + 1) - 1)%Z.
Proof.
  intros Hl. destruct (Z.lt_ge_cases D 0) as [Hneg|Hpos].
  - rewrite create_tree_negative_depth in Hl by assumption.
    destruct (create_new_element a b 0) as [e|]; cbn [bind] in Hl; [|discriminate].
    injection Hl as <-. replace (Z.max 0 D) with 0%Z by lia. reflexivity.
  - apply create_tree_ok_inv in Hl; [|exact Hpos]. destruct Hl as [_ ->].
    rewrite length_map, length_bfs_items. cbn [length]. rewrite Nat.mul_1_l.
    assert (H : (1 <= 2 ^ S (Z.to_nat D))%nat).
    { assert (H := Nat.pow_nonzero 2 (S (Z.to_nat D))). lia. }
    rewrite Nat2Z.inj_sub by exact H. rewrite Nat2Z.inj_pow.
    replace (Z.of_nat (S (Z.to_nat D))) with (Z.max 0 D + 1)%Z by lia. reflexivity.
Qed.

(** ** The queue and the output along a run *)

Lemma item_leaves_pos D item : (1 <= item_leaves D item)%nat.
Proof.
  unfold item_leaves.
  assert (H := Nat.pow_nonzero 2 (Z.to_nat (D - snd item))). lia.
Qed.

Lemma front_leaves_cons D item front :
  front_leaves D (item :: front) = (item_leaves D item + front_leaves D front)%nat.
Proof. reflexivity. Qed.

Lemma front_leaves_app D xs ys :
  front_leaves D (xs ++ ys) = (front_leaves D xs + front_leaves D ys)%nat.
Proof. unfold front_leaves. now rewrite map_app, list_sum_app. Qed.

Lemma length_le_front_leaves D front : (length front <= front_leaves D front)%nat.
Proof.
  induction front as [|item front IH]; [cbn; lia|].
  rewrite front_leaves_cons. cbn [length].
  assert (H := item_leaves_pos D item). lia.
Qed.

(** An execution of the loop body never increases the number of items of the
    last generation the queue stands for. *)
Lemma loop_body_leaves D item front acc front' acc' :
  loop_body D item front acc = Ok (front', acc') ->
  (front_leaves D front' <= front_leaves D (item :: front))%nat.
Proof.
  intros Hb. apply loop_body_ok_inv in Hb.
  destruct Hb as (_ & e & _ & [(Hlt & c1 & c2 & -> & H1 & H2)|(_ & ->)]);
    rewrite front_leaves_cons.
  - rewrite front_leaves_app, !front_leaves_cons.
    change (front_leaves D []) with 0%nat.
    unfold item_leaves. rewrite H1, H2.
    replace (Z.to_nat (D - snd item))
      with (S (Z.to_nat (D - (snd item + 1)))) by lia.
    rewrite Nat.pow_succ_r'. lia.
  - lia.
Qed.

Lemma loop_reaches_leaves D (st st' : list (work_item M) * list (TreeElement M)) :
  loop_reaches D st st' ->
  (front_leaves D (fst st') <= front_leaves D (fst st))%nat.
Proof.
  induction 1 as [st|item front acc [front' acc'] st'' Hb _ IH]; [lia|].
  apply loop_body_leaves in Hb. cbn [fst] in *. lia.
Qed.

Lemma while_loop_extends D : forall front acc (l : list (TreeElement M)),
  while_loop D front acc = Ok l ->
  exists rest, l = acc ++ rest /\ (length front <= length rest)%nat.
Proof.
  intros front. remember (front_weight D front) as w eqn:Hw.
  revert front Hw. induction w as [w IH] using lt_wf_ind.
  intros [|item front] Hw acc l Hl.
  - rewrite while_loop_nil in Hl. injection Hl as <-.
    exists []. now rewrite app_nil_r.
  - rewrite while_loop_cons in Hl.
    destruct (loop_body D item front acc) as [[front' acc']|e] eqn:Hb;
      [|discriminate].
    assert (Hdec := loop_body_decreases _ _ _ _ _ _ Hb).
    assert (Hlt : (front_weight D front' < w)%nat) by lia.
    destruct (IH _ Hlt front' eq_refl acc' l Hl) as (rest & -> & Hlen).
    apply loop_body_ok_inv in Hb.
    destruct Hb as (_ & e & -> & Hfront). exists (e :: rest).
    rewrite <- app_assoc. split; [reflexivity|]. cbn [length].
    destruct Hfront as [(_ & c1 & c2 & -> & _)|(_ & ->)].
    + rewrite length_app in Hlen. lia.
    + lia.
Qed.

Lemma loop_reaches_while_loop D (st st' : list (work_item M) * list (TreeElement M)) :
  loop_reaches D st st' ->
  while_loop D (fst st) (snd st) = while_loop D (fst st') (snd st').
Proof.
  induction 1 as [st|item front acc [front' acc'] st'' Hb _ IH]; [reflexivity|].
  cbn [fst snd] in *. now rewrite while_loop_cons, Hb.
Qed.

(** ** Generations and subtrees *)

Lemma bfs_items_succ (n : nat) : forall items,
  bfs_items (S n) items = bfs_items n items ++ generation (S n) items.
Proof.
  induction n as [|m IH]; intros items.
  - cbn [bfs_items generation]. now rewrite !app_nil_r.
  - change (bfs_items (S (S m)) items)
      with (items ++ bfs_items (S m) (flat_map children items)).
    rewrite IH. cbn [bfs_items generation]. now rewrite app_assoc.
Qed.

Lemma length_generation (k : nat) : forall items,
  length (generation k items) = (length items * 2 ^ k)%nat.
Proof.
  induction k as [|k IH]; intros items; cbn [generation].
  - cbn. lia.
  - rewrite IH, length_flat_map_children, Nat.pow_succ_r'. unfold work_item. nia.
Qed.

Lemma generation_depth (k : nat) : forall items d,
  Forall (fun it => snd it = d) items ->
  Forall (fun it => snd it = (d + Z.of_nat k)%Z) (generation k items).
Proof.
  induction k as [|k IH]; intros items d Hd; cbn [generation].
  - eapply Forall_impl; [|exact Hd]. cbn. lia.
  - eapply Forall_impl; [|apply (IH _ (d + 1)%Z), flat_map_children_depth, Hd].
    cbn. lia.
Qed.

Lemma children_deepen (k : Z) item :
  children (deepen_item k item) = map (deepen_item k) (children item).
Proof.
  destruct item as [[a b] d]. cbn [deepen_item].
  rewrite (children_any_depth a b d (d + k)).
  now replace (d + k - d)%Z with k by lia.
Qed.

Lemma flat_map_children_deepen (k : Z) items :
  flat_map children (map (deepen_item k) items)
  = map (deepen_item k) (flat_map children items).
Proof.
  induction items as [|it items IH]; [reflexivity|].
  cbn [map flat_map]. now rewrite map_app, children_deepen, IH.
Qed.

Lemma bfs_items_deepen (k : Z) (n : nat) : forall items,
  bfs_items n (map (deepen_item k) items) = map (deepen_item k) (bfs_items n items).
Proof.
  induction n as [|m IH]; intros items; cbn [bfs_items]; rewrite map_app.
  - reflexivity.
  - now rewrite flat_map_children_deepen, IH.
Qed.

Lemma element_of_deepen (k : Z) item :
  element_of (deepen_item k item) = deepen k (element_of item).
Proof.
  destruct item as [[a b] d]. cbn [deepen_item]. unfold element_of, deepen.
  rewrite (create_new_element_any_depth a b d (d + k)).
  destruct (create_new_element a b d) as [e|] eqn:He; cbn [polygon depth].
  - destruct (create_new_element_polygon _ _ _ _ He) as (_ & _ & _ & _ & ->).
    reflexivity.
  - reflexivity.
Qed.

Lemma map_element_of_deepen (k : Z) items :
  map element_of (map (deepen_item k) items)
  = map (deepen k) (map element_of items).
Proof.
  rewrite !map_map. apply map_ext. exact (element_of_deepen k).
Qed.

Lemma buildable_deepen (k : Z) item : buildable item -> buildable (deepen_item k item).
Proof.
  destruct item as [[a b] d]. cbn [deepen_item]. apply buildable_any_depth.
Qed.

Lemma bfs_items_app_perm (n : nat) : forall xs ys : list (work_item M),
  Permutation (bfs_items n (xs ++ ys)) (bfs_items n xs ++ bfs_items n ys).
Proof.
  induction n as [|m IH]; intros xs ys; cbn [bfs_items].
  - now rewrite !app_nil_r.
  - rewrite flat_map_app.
    rewrite (IH (flat_map children xs) (flat_map children ys)).
    rewrite <- !app_assoc. apply Permutation_app_head.
    apply Permutation_app_swap_app.
Qed.

End Traversal.

(** * The two arithmetics *)

Lemma not_raises_ok {A : Type} (v : A) (name : String.string) :
  ~ raises (Ok v) name.
Proof. intros (e & He & _). discriminate. Qed.

Lemma raises_zero_division {A : Type} (name : String.string) :
  raises (@Raise A ZeroDivisionError) name -> name = "ZeroDivisionError"%string.
Proof. intros (e & [= <-] & <-). reflexivity. Qed.

(** No exception of the code has the class [InvalidArgument]. *)
Lemma not_raises_invalid_argument {A : Type} (r : result A) :
  ~ raises r "InvalidArgument".
Proof. intros (e & _ & He). destruct e; discriminate He. Qed.

(** ** Exact arithmetic *)

Section Reals.
Local Open Scope R_scope.

Implicit Types (a b : point real_arith).

Lemma sum_squares_zero (x y : R) : sqrt (x ^ 2 + y ^ 2) = 0 -> x = 0 /\ y = 0.
Proof.
  intros H. apply sqrt_eq_0 in H; [|nra].
  split; nra.
Qed.

Lemma base_length_nonzero a b :
  a <> b -> sqrt ((- (snd b - snd a)) ^ 2 + (fst b - fst a) ^ 2) <> 0.
Proof.
  intros Hab H. apply Hab.
  apply sum_squares_zero in H. destruct H as [Hy Hx].
  destruct a as [ax ay], b as [bx b_y]. simpl in *. f_equal; lra.
Qed.

Lemma base_length_degenerate a :
  sqrt ((- (snd a - snd a)) ^ 2 + (fst a - fst a) ^ 2) = 0.
Proof.
  replace ((- (snd a - snd a)) ^ 2 + (fst a - fst a) ^ 2) with 0 by ring.
  apply sqrt_0.
Qed.

Lemma create_new_element_real a b (d : Z) :
  a <> b ->
  create_new_element a b d = Ok {| polygon := real_polygon a b; depth := d |}.
Proof.
  intros Hab. apply base_length_nonzero in Hab.
  unfold create_new_element. cbn [real_arith num_pow_2 num_pow_0_5 num_div
    num_add num_sub num_mul num_neg num_0_5 bind].
  unfold real_div, ROOF_HEIGHT_FACTOR. cbn [real_arith num_0_33].
  set (n := sqrt ((- (snd b - snd a)) ^ 2 + (fst b - fst a) ^ 2)) in *.
  destruct (Req_dec_T n 0) as [Hz|_]; [contradiction|].
  cbn [bind]. unfold real_polygon. do 2 f_equal.
  repeat (apply f_equal2;
    [first [reflexivity
           | apply f_equal2; change (carrier real_arith) with R; field; exact Hab]|]).
  reflexivity.
Qed.

Lemma create_new_element_degenerate a (d : Z) :
  create_new_element a a d = Raise ZeroDivisionError.
Proof.
  unfold create_new_element. cbn [real_arith num_pow_2 num_pow_0_5 num_div
    num_add num_sub num_mul num_neg num_0_5 bind].
  unfold real_div. rewrite base_length_degenerate.
  destruct (Req_dec_T 0 0) as [_|Hnz]; [reflexivity|now destruct Hnz].
Qed.

Lemma point_eq_dec a b : {a = b} + {a <> b}.
Proof.
  destruct a as [ax ay], b as [bx b_y].
  destruct (Req_dec_T ax bx) as [->|Hx]; [|right; congruence].
  destruct (Req_dec_T ay b_y) as [->|Hy]; [now left|right; congruence].
Qed.

Lemma nondegenerate_buildable (item : work_item real_arith) :
  nondegenerate item -> buildable item.
Proof.
  destruct item as [[a b] d]. unfold nondegenerate, buildable. cbn [fst snd].
  intros Hab. rewrite (create_new_element_real a b d Hab). eauto.
Qed.

Lemma children_nondegenerate (item : work_item real_arith) :
  nondegenerate item -> Forall nondegenerate (children item).
Proof.
  destruct item as [[a b] d]. unfold nondegenerate. cbn [fst snd].
  intros Hab.
  rewrite (children_built a b d _ _ _ _ _ _ _ _
             (create_new_element_real a b d Hab) eq_refl).
  assert (Hne : fst b - fst a <> 0 \/ snd b - snd a <> 0).
  { destruct (Req_dec_T (fst b - fst a) 0) as [Hx|Hx]; [|now left].
    destruct (Req_dec_T (snd b - snd a) 0) as [Hy|Hy]; [|now right].
    destruct Hab. destruct a, b. cbn [fst snd] in *. f_equal; lra. }
  constructor; [|constructor; [|constructor]]; cbn [fst snd];
    intros [= H1 H2]; change (carrier real_arith) with R in *; lra.
Qed.

Lemma flat_map_children_nondegenerate (items : list (work_item real_arith)) :
  Forall nondegenerate items -> Forall nondegenerate (flat_map children items).
Proof.
  induction 1 as [|it items Hit _ IH]; cbn [flat_map]; [constructor|].
  apply Forall_app. split; [now apply children_nondegenerate|exact IH].
Qed.

Lemma bfs_items_nondegenerate (levels : nat) :
  forall items : list (work_item real_arith),
  Forall nondegenerate items -> Forall nondegenerate (bfs_items levels items).
Proof.
  induction levels as [|k IH]; intros items Hnd; cbn [bfs_items];
    apply Forall_app; split; auto using flat_map_children_nondegenerate.
Qed.

(** In exact arithmetic the tree of a base with distinct points is always
    returned. *)
Lemma create_tree_real a b (D : Z) :
  a <> b -> (0 <= D)%Z ->
  create_tree a b D = Ok (map element_of (bfs_items (Z.to_nat D) [(a, b, 0%Z)])).
Proof.
  intros Hab HD. apply create_tree_bfs; [exact HD|].
  eapply Forall_impl; [exact nondegenerate_buildable|].
  apply bfs_items_nondegenerate. repeat constructor. exact Hab.
Qed.

Lemma create_tree_degenerate a (D : Z) :
  create_tree a a D = Raise ZeroDivisionError.
Proof.
  apply create_tree_root_raises, create_new_element_degenerate.
Qed.

(** The base of the scenarios of the specification: [a = (0, 0)],
    [b = (10, 0)]. *)
Lemma scenario_base_distinct : ((0, 0) : point real_arith) <> (10, 0).
Proof. intros [= H]. lra. Qed.

End Reals.

(** ** IEEE binary64 *)

Lemma float_mul_comm (x y : float) : PrimFloat.mul x y = PrimFloat.mul y x.
Proof.
  apply Prim2SF_inj. rewrite !mul_spec.
  destruct (Prim2SF x) as [sx|sx| |sx mx ex], (Prim2SF y) as [sy|sy| |sy my ey];
    cbn; try reflexivity; try (now rewrite xorb_comm).
  now rewrite xorb_comm, Pos.mul_comm, Z.add_comm.
Qed.

Lemma tiny_distinct : tiny_a <> tiny_b.
Proof.
  intros H. apply (f_equal (fun p => PrimFloat.eqb (fst p) 0%float)) in H.
  vm_compute in H. discriminate.
Qed.

Lemma far_distinct : far_a <> far_b.
Proof.
  intros H. apply (f_equal (fun p => PrimFloat.eqb (fst p) 1e16%float)) in H.
  vm_compute in H. discriminate.
Qed.

(** The squares of the differences underflow to zero and the division by
    the base length raises. *)
Lemma tiny_element_raises (d : Z) :
  create_new_element tiny_a tiny_b d = Raise ZeroDivisionError.
Proof. vm_compute. reflexivity. Qed.

(** The square of [1e200] overflows. *)
Lemma huge_element_raises (d : Z) :
  create_new_element (M := float_arith)
    (0%float, 0%float) (1e200%float, 0%float) d = Raise OverflowError.
Proof. vm_compute. reflexivity. Qed.

Lemma tiny_tree_raises (D : Z) :
  create_tree tiny_a tiny_b D = Raise ZeroDivisionError.
Proof.
  apply create_tree_root_raises, tiny_element_raises.
Qed.

(** At [far_a], [far_b] the root is built, its roof top is rounded onto the
    corner [polygon[4]], and the first child raises. *)
Lemma far_tree_raises :
  create_tree far_a far_b 1 = Raise ZeroDivisionError.
Proof. vm_compute. reflexivity. Qed.

Lemma far_run :
  exists c2 root,
    loop_runs 1 [(far_a, far_b, 0%Z)] [] 2 [c2] (Raise ZeroDivisionError) /\
    create_new_element far_a far_b 0 = Ok root /\
    nth_error (polygon root) 4 = nth_error (polygon root) 5.
Proof.
  do 2 eexists. split; [|split].
  - eapply runs_iter; [compute_lhs|].
    apply runs_raise. vm_compute. reflexivity.
  - compute_lhs.
  - reflexivity.
Qed.

(** The trees of the scenario base. *)
Lemma scenario_element (d : Z) :
  create_new_element scenario_a scenario_b d
  = Ok (element_of (scenario_a, scenario_b, d)).
Proof. vm_compute. reflexivity. Qed.

Lemma scenario_tree (D : Z) :
  (0 <= D <= 3)%Z ->
  create_tree scenario_a scenario_b D
  = Ok (map element_of (bfs_items (Z.to_nat D) [(scenario_a, scenario_b, 0%Z)])).
Proof.
  intros HD.
  assert (H : (D = 0 \/ D = 1 \/ D = 2 \/ D = 3)%Z) by lia.
  destruct H as [H|[H|[H|H]]]; subst D; vm_compute; reflexivity.
Qed.

(** [a = (0, 0)], [b = (10, 0)], [max_depth = 0]: one element, whose
    polygon starts with [(0, 10)], [(0, 0)], [(10, 0)], [(10, 10)]. *)
Example scenario_max_depth_0 :
  create_tree scenario_a scenario_b 0 =
  Ok [ @mkTreeElement float_arith
         [ (0, 10); (0, 0); (10, 0); (10, 10); (0, 10);
           (5, 13.300000000000001); (10, 10) ]%float
         0 ].
Proof. vm_compute. reflexivity. Qed.

(** [a = (0, 0)], [b = (10, 0)], [max_depth = 1]: three elements, of
    depths [0], [1], [1]. *)
Example scenario_max_depth_1 :
  exists l, create_tree scenario_a scenario_b 1 = Ok l /\
            map depth l = [0%Z; 1%Z; 1%Z].
Proof. eexists. split; [compute_lhs|reflexivity]. Qed.

Example getitem_negative : getitem [1%Z; 2%Z; 3%Z] (-1) = Ok 3%Z.
Proof. reflexivity. Qed.

Example getitem_out_of_range :
  getitem [1%Z; 2%Z; 3%Z] 3 = Raise IndexError /\
  getitem [1%Z; 2%Z; 3%Z] (-4) = Raise IndexError.
Proof. split; reflexivity. Qed.

Lemma scenario_buildable (d : Z) : buildable (scenario_a, scenario_b, d).
Proof. exists (element_of (scenario_a, scenario_b, d)). apply scenario_element. Qed.

(** The state after the first execution of the body in the scenario with
    [max_depth = 1]. *)
Lemma scenario_first_step :
  loop_reaches 1 ([(scenario_a, scenario_b, 0%Z)], [])
    ([] ++ children (scenario_a, scenario_b, 0%Z),
     [] ++ [element_of (scenario_a, scenario_b, 0%Z)]).
Proof.
  eapply reaches_step; [|apply reaches_here].
  apply loop_body_expand; [apply scenario_buildable|lia].
Qed.

(** * The claims *)

(** C1, as the specification states it, fails: in IEEE binary64, for the
    distinct points [far_a], [far_b] and [max_depth = 1], the root is built,
    its roof top is rounded onto a corner of the wall, and [create_tree]
    raises [ZeroDivisionError] on the first child: no sequence is
    returned. *)
Lemma distinct_points_no_count :
  far_a <> far_b /\ (0 <= 1)%Z /\
  create_tree far_a far_b 1 = Raise ZeroDivisionError /\
  ~ (exists l, create_tree far_a far_b 1 = Ok l /\
               Z.of_nat (length l) = (2 ^ (1 + 1) - 1)%Z).
Proof.
  split; [exact far_distinct|]. split; [lia|]. split; [exact far_tree_raises|].
  intros (l & Hl & _). rewrite far_tree_raises in Hl. discriminate.
Qed.

(** C1, amended.  In every arithmetic, for all points [a], [b] and every
    [max_depth = D >= 0], [create_tree a b D] either returns a sequence of
    exactly [2^(D+1) - 1] elements or raises an exception that
    [create_new_element] raises on a base. *)
Theorem create_tree_count (M : arithmetic) (a b : point M) (D : Z) :
  (0 <= D)%Z ->
  (exists l, create_tree a b D = Ok l /\
             Z.of_nat (length l) = (2 ^ (D + 1) - 1)%Z)
  \/ (exists e (p q : point M) d, create_tree a b D = Raise e /\
                      create_new_element p q d = Raise e).
Proof.
  intros HD. destruct (create_tree a b D) as [l|e] eqn:Hl.
  - left. exists l. split; [reflexivity|].
    rewrite (create_tree_length a b D l Hl). now replace (Z.max 0 D) with D by lia.
  - right. destruct (while_loop_raise_source D _ _ e Hl) as (p & q & d & He).
    exists e, p, q, d. now split.
Qed.

Lemma create_tree_count_witness :
  (0 <= 2)%Z /\
  ((exists l, create_tree scenario_a scenario_b 2 = Ok l /\
              Z.of_nat (length l) = (2 ^ (2 + 1) - 1)%Z)
   \/ (exists e (p q : point float_arith) d,
         create_tree scenario_a scenario_b 2 = Raise e /\
                       create_new_element p q d = Raise e)).
Proof.
  split; [lia|].
  exact (create_tree_count float_arith scenario_a scenario_b 2 ltac:(lia)).
Defined.

(** C2, as the specification states it, fails: in IEEE binary64, for the
    distinct points [(0, 0)], [(1e-200, 0)] the squares underflow and
    [create_new_element] raises [ZeroDivisionError], and for [(0, 0)],
    [(1e200, 0)] the square overflows and it raises [OverflowError]: no
    element is returned. *)
Lemma distinct_points_no_element :
  tiny_a <> tiny_b /\
  create_new_element tiny_a tiny_b 0 = Raise ZeroDivisionError /\
  create_new_element (M := float_arith)
    (0%float, 0%float) (1e200%float, 0%float) 0 = Raise OverflowError.
Proof.
  split; [exact tiny_distinct|].
  split; [apply tiny_element_raises|apply huge_element_raises].
Qed.

(** C2, amended.  In every arithmetic in which multiplying by [0.5] on
    either side gives the same number, [create_new_element A B d] is the
    evaluation of the element with the polygon
    [[A+TA, A, B, B+TA, A+TA, RT, B+TA]], where [TA = (-BA.y, BA.x)],
    [BA = B - A], [RT = A + TA + 0.5*BA + rh * TA / |TA|] and
    [rh = |TA| * 0.33], and the depth [d]: it returns this element when the
    evaluation raises nothing and raises what the evaluation raises
    otherwise. *)
Theorem create_new_element_spec (M : arithmetic) (A B : point M) (d : Z) :
  (forall x, num_mul M x (num_0_5 M) = num_mul M (num_0_5 M) x) ->
  create_new_element A B d = spec_element A B d.
Proof.
  intros Hcomm. unfold create_new_element, spec_element, vnorm, vdiv,
    ROOF_HEIGHT_FACTOR. cbn [tangent vsub vscale vadd fst snd].
  destruct (num_pow_2 M _) as [x2|]; cbn [bind]; [|reflexivity].
  destruct (num_pow_2 M _) as [y2|]; cbn [bind]; [|reflexivity].
  destruct (num_pow_0_5 M _) as [bl|]; cbn [bind]; [|reflexivity].
  destruct (num_div M _ bl) as [qx|]; cbn [bind]; [|reflexivity].
  destruct (num_div M _ bl) as [qy|]; cbn [bind]; [|reflexivity].
  unfold vadd, vscale. cbn [fst snd]. rewrite !Hcomm.
  destruct A, B. reflexivity.
Qed.

Lemma create_new_element_spec_witness :
  (forall x, num_mul float_arith x (num_0_5 float_arith)
             = num_mul float_arith (num_0_5 float_arith) x) /\
  create_new_element scenario_a scenario_b 3 = spec_element scenario_a scenario_b 3.
Proof.
  assert (H : forall x, num_mul float_arith x (num_0_5 float_arith)
                        = num_mul float_arith (num_0_5 float_arith) x).
  { intros x. apply float_mul_comm. }
  split; [exact H|].
  exact (create_new_element_spec float_arith scenario_a scenario_b 3 H).
Defined.

(** C3.  One execution of the loop body on a dequeued item [(a, b, d)]
    whose element [e] was built: when [d < max_depth] exactly the two
    items [(polygon[4], polygon[5], d+1)] and [(polygon[5], polygon[6],
    d+1)] are appended to the queue, in this order; when
    [d >= max_depth] the queue is left as it is. *)
Theorem loop_body_children (M : arithmetic) (D : Z) (a b : point M) (d : Z)
    (front : list (work_item M)) (acc : list (TreeElement M)) (e : TreeElement M) :
  create_new_element a b d = Ok e ->
  ((d < D)%Z ->
     exists p4 p5 p6,
       nth_error (polygon e) 4 = Some p4 /\
       nth_error (polygon e) 5 = Some p5 /\
       nth_error (polygon e) 6 = Some p6 /\
       loop_body D (a, b, d) front acc =
       Ok (front ++ [(p4, p5, (d + 1)%Z); (p5, p6, (d + 1)%Z)], acc ++ [e]))
  /\ ((d >= D)%Z -> loop_body D (a, b, d) front acc = Ok (front, acc ++ [e])).
Proof.
  intros He.
  destruct (create_new_element_polygon a b d e He) as (p0 & p3 & p5 & Hp & _).
  unfold loop_body. rewrite He. cbn [bind]. split; intros Hd.
  - exists p0, p5, p3. rewrite Hp. repeat (split; [reflexivity|]).
    destruct (Z.geb_spec d D) as [Hge|_]; [lia|].
    destruct (getitem_last_three p0 a b p3 p0 p5 p3) as (-> & -> & ->).
    cbn [bind]. now rewrite <- app_assoc.
  - destruct (Z.geb_spec d D) as [_|Hlt]; [reflexivity|lia].
Qed.

Lemma loop_body_children_witness :
  create_new_element scenario_a scenario_b 0
    = Ok (element_of (scenario_a, scenario_b, 0%Z)) /\
  exists p4 p5 p6,
    nth_error (polygon (element_of (scenario_a, scenario_b, 0%Z))) 4 = Some p4 /\
    nth_error (polygon (element_of (scenario_a, scenario_b, 0%Z))) 5 = Some p5 /\
    nth_error (polygon (element_of (scenario_a, scenario_b, 0%Z))) 6 = Some p6 /\
    loop_body 1 (scenario_a, scenario_b, 0%Z) [] [] =
    Ok ([] ++ [(p4, p5, (0 + 1)%Z); (p5, p6, (0 + 1)%Z)],
        [] ++ [element_of (scenario_a, scenario_b, 0%Z)]).
Proof.
  split; [apply scenario_element|].
  exact (proj1 (loop_body_children float_arith 1 scenario_a scenario_b 0 [] [] _
                  (scenario_element 0))
           ltac:(lia)).
Defined.

(** C4, as the specification states it, fails: in IEEE binary64, for the
    distinct points [(0, 0)], [(1e-200, 0)] and [max_depth = 1],
    [create_tree] raises [ZeroDivisionError] and returns no sequence. *)
Lemma distinct_points_no_ordering :
  tiny_a <> tiny_b /\ (0 <= 1)%Z /\
  create_tree tiny_a tiny_b 1 = Raise ZeroDivisionError.
Proof.
  split; [exact tiny_distinct|]. split; [lia|apply tiny_tree_raises].
Qed.

(** C4, amended.  In every arithmetic, whenever [create_tree] returns a
    sequence, for whatever points and [max_depth], the sequence has an
    element of depth [0] at index [0], and the depth fields never decrease
    along it. *)
Theorem create_tree_ordering (M : arithmetic) (a b : point M) (D : Z)
    (l : list (TreeElement M)) :
  create_tree a b D = Ok l ->
  (exists e0, nth_error l 0 = Some e0 /\ depth e0 = 0%Z) /\
  forall (i j : nat) (ei ej : TreeElement M),
    (i <= j)%nat -> nth_error l i = Some ei -> nth_error l j = Some ej ->
    (depth ei <= depth ej)%Z.
Proof.
  intros Hl. destruct (Z.lt_ge_cases D 0) as [Hneg|Hpos].
  - rewrite create_tree_negative_depth in Hl by assumption.
    destruct (create_new_element a b 0) as [e|] eqn:He; cbn [bind] in Hl;
      [|discriminate].
    injection Hl as <-.
    destruct (create_new_element_polygon _ _ _ _ He) as (_ & _ & _ & _ & Hd).
    split; [exists e; now split|].
    intros [|[|i]] [|[|j]] ei ej Hij Hi Hj; cbn in Hi, Hj; try discriminate;
      try lia.
    injection Hi as <-. injection Hj as <-. lia.
  - apply create_tree_ok_inv in Hl; [|exact Hpos]. destruct Hl as [_ ->]. split.
    + destruct (Z.to_nat D); cbn [bfs_items app map nth_error];
        (eexists; split; [reflexivity|apply depth_element_of]).
    + intros i j ei ej Hij Hi Hj.
      apply (StronglySorted_nth_error
               (map depth (map element_of (bfs_items (Z.to_nat D) [(a, b, 0%Z)])))
               ) with (i := i) (j := j).
      * rewrite map_depth_element_of.
        apply (bfs_items_depth_sorted _ _ 0%Z). repeat constructor.
      * exact Hij.
      * now apply map_nth_error.
      * now apply map_nth_error.
Qed.

Lemma create_tree_ordering_witness :
  create_tree scenario_a scenario_b 2
    = Ok (map element_of (bfs_items (Z.to_nat 2) [(scenario_a, scenario_b, 0%Z)])) /\
  (exists e0,
     nth_error (map element_of
                  (bfs_items (Z.to_nat 2) [(scenario_a, scenario_b, 0%Z)])) 0
       = Some e0 /\ depth e0 = 0%Z) /\
  forall (i j : nat) (ei ej : TreeElement float_arith),
    (i <= j)%nat ->
    nth_error (map element_of
                 (bfs_items (Z.to_nat 2) [(scenario_a, scenario_b, 0%Z)])) i
      = Some ei ->
    nth_error (map element_of
                 (bfs_items (Z.to_nat 2) [(scenario_a, scenario_b, 0%Z)])) j
      = Some ej ->
    (depth ei <= depth ej)%Z.
Proof.
  assert (Hl := scenario_tree 2 ltac:(lia)).
  split; [exact Hl|].
  exact (create_tree_ordering float_arith scenario_a scenario_b 2 _ Hl).
Defined.

(** C5, as the specification states it, fails: in IEEE binary64, for the
    distinct points [far_a], [far_b], [max_depth = 1] and [k = 1],
    [create_tree] raises [ZeroDivisionError] on the first child and
    returns no sequence. *)
Lemma distinct_points_no_distribution :
  far_a <> far_b /\ (0 <= 1 <= 1)%Z /\
  create_tree far_a far_b 1 = Raise ZeroDivisionError /\
  ~ (exists l, create_tree far_a far_b 1 = Ok l /\
               Z.of_nat (count_depth 1 l) = (2 ^ 1)%Z).
Proof.
  split; [exact far_distinct|]. split; [lia|]. split; [exact far_tree_raises|].
  intros (l & Hl & _). rewrite far_tree_raises in Hl. discriminate.
Qed.

(** C5, amended.  In every arithmetic, whenever [create_tree a b D] returns
    a sequence, exactly [2^k] of its elements have depth [k], for every
    [0 <= k <= D]. *)
Theorem create_tree_depth_distribution (M : arithmetic) (a b : point M)
    (D k : Z) (l : list (TreeElement M)) :
  create_tree a b D = Ok l -> (0 <= k <= D)%Z ->
  Z.of_nat (count_depth k l) = (2 ^ k)%Z.
Proof.
  intros Hl Hk. apply create_tree_ok_inv in Hl; [|lia]. destruct Hl as [_ ->].
  rewrite count_depth_element_of.
  rewrite (count_items_bfs k _ _ 0%Z); [|repeat constructor|lia].
  cbn [length]. rewrite Nat.mul_1_l, Nat2Z.inj_pow, Z.sub_0_r.
  f_equal. lia.
Qed.

Lemma create_tree_depth_distribution_witness :
  create_tree scenario_a scenario_b 3
    = Ok (map element_of (bfs_items (Z.to_nat 3) [(scenario_a, scenario_b, 0%Z)])) /\
  (0 <= 2 <= 3)%Z /\
  Z.of_nat (count_depth 2
              (map element_of
                 (bfs_items (Z.to_nat 3) [(scenario_a, scenario_b, 0%Z)])))
  = (2 ^ 2)%Z.
Proof.
  assert (Hl := scenario_tree 3 ltac:(lia)).
  split; [exact Hl|]. split; [lia|].
  exact (create_tree_depth_distribution float_arith scenario_a scenario_b 3 2 _
           Hl ltac:(lia)).
Defined.

(** C6, as the specification states it, fails: with both base points
    equal to [(0, 0)] and [max_depth = 0] the generator ends with
    [ZeroDivisionError], which is not an [InvalidGeometry] error. *)
Lemma degenerate_base_not_invalid_geometry :
  create_tree (M := real_arith) (0%R, 0%R) (0%R, 0%R) 0 = Raise ZeroDivisionError /\
  ~ raises (create_tree (M := real_arith) (0%R, 0%R) (0%R, 0%R) 0) "InvalidGeometry".
Proof.
  rewrite create_tree_degenerate. split; [reflexivity|].
  intros H. apply raises_zero_division in H. discriminate H.
Qed.

(** C6, amended.  For every point [a] and every [max_depth],
    [create_tree a a max_depth] ends with the [ZeroDivisionError] that
    the division by the base length raises in [create_new_element] for
    the root item; no element is returned. *)
Theorem create_tree_degenerate_base (a : point real_arith) (D : Z) :
  create_new_element a a 0 = Raise ZeroDivisionError /\
  create_tree a a D = Raise ZeroDivisionError /\
  raises (create_tree a a D) "ZeroDivisionError".
Proof.
  split; [apply create_new_element_degenerate|].
  rewrite create_tree_degenerate. split; [reflexivity|].
  exists ZeroDivisionError. now split.
Qed.

(** C7, as the specification states it, fails: with the base
    [(0, 0)], [(10, 0)] and [max_depth = -1] the generator raises nothing
    and returns one element. *)
Lemma negative_depth_not_rejected :
  (exists l, create_tree (M := real_arith) (0%R, 0%R) (10%R, 0%R) (-1) = Ok l /\
             length l = 1%nat) /\
  ~ raises (create_tree (M := real_arith) (0%R, 0%R) (10%R, 0%R) (-1))
           "InvalidArgument".
Proof.
  rewrite create_tree_negative_depth by lia.
  rewrite (create_new_element_real _ _ _ scenario_base_distinct). cbn [bind].
  split; [eauto|apply not_raises_ok].
Qed.

(** C7, amended.  [create_tree] does not check [max_depth]: for every
    negative [max_depth] it does what building the root element does, it
    returns the one-element sequence of the root when
    [create_new_element a b 0] succeeds and raises the exception of
    [create_new_element a b 0] otherwise; it never raises
    [InvalidArgument]. *)
Theorem create_tree_negative_max_depth (M : arithmetic) (a b : point M) (D : Z) :
  (D < 0)%Z ->
  create_tree a b D = (e <- create_new_element a b 0 ;; Ok [e]) /\
  ~ raises (create_tree a b D) "InvalidArgument".
Proof.
  intros HD. split; [now apply create_tree_negative_depth|].
  apply not_raises_invalid_argument.
Qed.

Lemma create_tree_negative_max_depth_witness :
  (-1 < 0)%Z /\
  create_tree (M := real_arith) (0%R, 0%R) (10%R, 0%R) (-1)
    = (e <- create_new_element (M := real_arith) (0%R, 0%R) (10%R, 0%R) 0 ;; Ok [e]) /\
  ~ raises (create_tree (M := real_arith) (0%R, 0%R) (10%R, 0%R) (-1))
           "InvalidArgument".
Proof.
  split; [lia|].
  exact (create_tree_negative_max_depth real_arith (0%R, 0%R) (10%R, 0%R) (-1)
           ltac:(lia)).
Defined.

(** C8, as the specification states it, fails: in IEEE binary64, for the
    points [far_a], [far_b] and [max_depth = 1], the loop is left by the
    [ZeroDivisionError] of its second execution while the second child of
    the root is still in the queue: the queue does not empty. *)
Lemma queue_not_emptied :
  far_a <> far_b /\
  exists q,
    loop_runs 1 [(far_a, far_b, 0%Z)] [] 2 q (Raise ZeroDivisionError) /\
    q <> [].
Proof.
  split; [exact far_distinct|].
  destruct far_run as (c2 & root & Hrun & _).
  exists [c2]. split; [exact Hrun|discriminate].
Qed.

(** C8, amended.  In every arithmetic, for any two points and any integer
    [max_depth], the loop of [create_tree] terminates after at most
    [2^(max_depth+1) - 1] executions of its body when [max_depth >= 0] (and
    after one when [max_depth < 0]): its run from the root item is unique,
    its outcome is the result of [create_tree], and it ends either with the
    queue empty or by an exception of [create_new_element], which may leave
    items in the queue. *)
Theorem create_tree_terminates (M : arithmetic) (a b : point M) (D : Z) :
  exists (n : nat) (q : list (work_item M)) (r : result (list (TreeElement M))),
    loop_runs D [(a, b, 0%Z)] [] n q r /\
    create_tree a b D = r /\
    (Z.of_nat n <= 2 ^ (Z.max 0 D + 1) - 1)%Z /\
    (forall l, r = Ok l -> q = []) /\
    (forall e, r = Raise e ->
       exists (p p' : point M) d, create_new_element p p' d = Raise e) /\
    forall n' q' r',
      loop_runs D [(a, b, 0%Z)] [] n' q' r' -> n' = n /\ q' = q /\ r' = r.
Proof.
  destruct (loop_runs_total D [(a, b, 0%Z)] []) as (n & q & r & Hrun & Hn).
  assert (Hr := loop_runs_while_loop _ _ _ _ _ _ Hrun).
  exists n, q, r. split; [exact Hrun|]. split; [exact Hr|]. split; [|split; [|split]].
  - rewrite <- (root_weight a b D). lia.
  - intros l ->. exact (loop_runs_exit_empty _ _ _ _ _ _ Hrun).
  - intros e ->. exact (while_loop_raise_source D _ _ e Hr).
  - exact (loop_runs_deterministic _ _ _ _ _ _ Hrun).
Qed.

(** C9, as the specification states it, fails: in IEEE binary64, for the
    distinct points [(0, 0)], [(1e-200, 0)] and [max_depth = -1],
    [create_tree] raises [ZeroDivisionError]. *)
Lemma negative_depth_distinct_points_raise :
  tiny_a <> tiny_b /\ (-1 < 0)%Z /\
  create_tree tiny_a tiny_b (-1) = Raise ZeroDivisionError.
Proof.
  split; [exact tiny_distinct|]. split; [lia|apply tiny_tree_raises].
Qed.

(** C9, amended.  In every arithmetic, for all points [a], [b] and every
    negative [max_depth]: when [create_new_element a b 0] returns an
    element, [create_tree a b max_depth] raises nothing and returns the
    sequence of exactly that element, whose depth is [0]; when it raises,
    [create_tree] raises the same exception. *)
Theorem create_tree_negative_single_root (M : arithmetic) (a b : point M) (D : Z) :
  (D < 0)%Z ->
  (forall e, create_new_element a b 0 = Ok e ->
             create_tree a b D = Ok [e] /\ depth e = 0%Z) /\
  (forall x, create_new_element a b 0 = Raise x -> create_tree a b D = Raise x).
Proof.
  intros HD. rewrite (create_tree_negative_depth a b D HD). split.
  - intros e He. rewrite He. split; [reflexivity|].
    now destruct (create_new_element_polygon _ _ _ _ He) as (_ & _ & _ & _ & Hd).
  - intros x ->. reflexivity.
Qed.

Lemma create_tree_negative_single_root_witness :
  (-7 < 0)%Z /\
  (forall e, create_new_element scenario_a scenario_b 0 = Ok e ->
             create_tree scenario_a scenario_b (-7) = Ok [e] /\ depth e = 0%Z) /\
  (forall x, create_new_element scenario_a scenario_b 0 = Raise x ->
             create_tree scenario_a scenario_b (-7) = Raise x).
Proof.
  split; [lia|].
  exact (create_tree_negative_single_root float_arith scenario_a scenario_b (-7)
           ltac:(lia)).
Defined.

(** C10, as the specification states it, fails: in IEEE binary64, for the
    distinct points [far_a], [far_b] and [max_depth = 1], the root is
    built with [polygon[4] = polygon[5]], no element can be built on that
    base, and [create_tree] returns no sequence. *)
Lemma distinct_points_no_heap :
  far_a <> far_b /\ (0 <= 1)%Z /\
  create_tree far_a far_b 1 = Raise ZeroDivisionError /\
  exists root p,
    create_new_element far_a far_b 0 = Ok root /\
    nth_error (polygon root) 4 = Some p /\
    nth_error (polygon root) 5 = Some p /\
    create_new_element p p 1 = Raise ZeroDivisionError.
Proof.
  split; [exact far_distinct|]. split; [lia|]. split; [exact far_tree_raises|].
  do 2 eexists. split; [compute_lhs|].
  split; [reflexivity|]. split; [reflexivity|]. vm_compute. reflexivity.
Qed.

(** C10, amended.  In every arithmetic, whenever [create_tree a b D] with
    [D >= 0] returns a sequence, the sequence is laid out as a complete
    binary heap: whenever [2*i + 2] is an index of the sequence, the
    elements at [2*i + 1] and [2*i + 2] are the elements built on the bases
    [(polygon[4], polygon[5])] and [(polygon[5], polygon[6])] of the element
    at [i] (these points are their [polygon[1]] and [polygon[2]]), with
    depth one greater than the depth of the element at [i]. *)
Theorem create_tree_heap_layout (M : arithmetic) (a b : point M) (D : Z)
    (l : list (TreeElement M)) :
  create_tree a b D = Ok l -> (0 <= D)%Z ->
  forall i : nat, (2 * i + 2 < length l)%nat ->
    exists e c1 c2 p4 p5 p6,
      nth_error l i = Some e /\
      nth_error l (2 * i + 1) = Some c1 /\
      nth_error l (2 * i + 2) = Some c2 /\
      nth_error (polygon e) 4 = Some p4 /\
      nth_error (polygon e) 5 = Some p5 /\
      nth_error (polygon e) 6 = Some p6 /\
      create_new_element p4 p5 (depth e + 1) = Ok c1 /\
      create_new_element p5 p6 (depth e + 1) = Ok c2 /\
      nth_error (polygon c1) 1 = Some p4 /\
      nth_error (polygon c1) 2 = Some p5 /\
      nth_error (polygon c2) 1 = Some p5 /\
      nth_error (polygon c2) 2 = Some p6 /\
      depth c1 = (depth e + 1)%Z /\ depth c2 = (depth e + 1)%Z.
Proof.
  intros Hl HD. apply create_tree_ok_inv in Hl; [|exact HD].
  destruct Hl as [Hnd ->].
  set (W := bfs_items (Z.to_nat D) [(a, b, 0%Z)]) in *.
  rewrite length_map. intros i Hi.
  destruct (nth_error W i) as [[[a' b'] d']|] eqn:Hit;
    [|apply nth_error_None in Hit; lia].
  destruct (bfs_items_children (Z.to_nat D) [(a, b, 0%Z)] i _ Hit)
    as (c1 & c2 & Hc & H1 & H2); [cbn [length]; fold W; lia|].
  fold W in H1, H2. cbn [length] in H1, H2.
  replace (2 * i + 1 + 1)%nat with (2 * i + 2)%nat in H2 by lia.
  rewrite Forall_forall in Hnd.
  assert (Hb := buildable_element_of _ _ _ (Hnd _ (nth_error_In _ _ Hit))).
  destruct (create_new_element_polygon _ _ _ _ Hb) as (p0 & p3 & p5 & Hp & Hd).
  rewrite (children_built _ _ _ _ _ _ _ _ _ _ _ Hb Hp) in Hc.
  injection Hc as <- <-.
  assert (Hb1 := buildable_element_of _ _ _ (Hnd _ (nth_error_In _ _ H1))).
  assert (Hb2 := buildable_element_of _ _ _ (Hnd _ (nth_error_In _ _ H2))).
  destruct (create_new_element_polygon _ _ _ _ Hb1) as (q0 & q3 & q5 & Hq & Hdq).
  destruct (create_new_element_polygon _ _ _ _ Hb2) as (r0 & r3 & r5 & Hr & Hdr).
  exists (element_of (a', b', d')), (element_of (p0, p5, (d' + 1)%Z)),
         (element_of (p5, p3, (d' + 1)%Z)), p0, p5, p3.
  rewrite (map_nth_error element_of _ _ Hit).
  rewrite (map_nth_error element_of _ _ H1).
  rewrite (map_nth_error element_of _ _ H2).
  rewrite Hp, Hq, Hr, Hd, Hdq, Hdr. repeat split; assumption.
Qed.

Lemma create_tree_heap_layout_witness :
  create_tree scenario_a scenario_b 2
    = Ok (map element_of (bfs_items (Z.to_nat 2) [(scenario_a, scenario_b, 0%Z)])) /\
  (0 <= 2)%Z /\
  exists e c1 c2 p4 p5 p6,
    nth_error (map element_of
                 (bfs_items (Z.to_nat 2) [(scenario_a, scenario_b, 0%Z)])) 1
      = Some e /\
    nth_error (map element_of
                 (bfs_items (Z.to_nat 2) [(scenario_a, scenario_b, 0%Z)])) (2 * 1 + 1)
      = Some c1 /\
    nth_error (map element_of
                 (bfs_items (Z.to_nat 2) [(scenario_a, scenario_b, 0%Z)])) (2 * 1 + 2)
      = Some c2 /\
    nth_error (polygon e) 4 = Some p4 /\
    nth_error (polygon e) 5 = Some p5 /\
    nth_error (polygon e) 6 = Some p6 /\
    create_new_element p4 p5 (depth e + 1) = Ok c1 /\
    create_new_element p5 p6 (depth e + 1) = Ok c2 /\
    nth_error (polygon c1) 1 = Some p4 /\
    nth_error (polygon c1) 2 = Some p5 /\
    nth_error (polygon c2) 1 = Some p5 /\
    nth_error (polygon c2) 2 = Some p6 /\
    depth c1 = (depth e + 1)%Z /\ depth c2 = (depth e + 1)%Z.
Proof.
  assert (Hl := scenario_tree 2 ltac:(lia)).
  split; [exact Hl|]. split; [lia|].
  apply (create_tree_heap_layout float_arith scenario_a scenario_b 2 _ Hl
           ltac:(lia) 1%nat).
  rewrite length_map, length_bfs_items. vm_compute. lia.
Defined.

(** * Further properties of the generator *)

(** ** Exceptions *)

(** X8.  The only exceptions of [create_tree] are those of
    [create_new_element]: an exception raised for the root base ends
    [create_tree] with that exception, and every exception of [create_tree]
    is one that [create_new_element] raised on some base. *)
Theorem create_tree_exception_source (M : arithmetic) (a b : point M) (D : Z) :
  (forall e, create_new_element a b 0 = Raise e -> create_tree a b D = Raise e) /\
  (forall e, create_tree a b D = Raise e ->
     exists (p q : point M) d, create_new_element p q d = Raise e).
Proof.
  split.
  - intros e He. now apply create_tree_root_raises.
  - intros e He. exact (while_loop_raise_source D _ _ e He).
Qed.

(** ** Growing the tree *)

(** X9.  Whenever [create_tree a b (D + 1)] returns, with [D >= 0], so does
    [create_tree a b D], and the deeper result is the shallower one followed
    by [2^(D+1)] elements, all of depth [D + 1]. *)
Theorem create_tree_deeper_extends (M : arithmetic) (a b : point M) (D : Z)
    (l2 : list (TreeElement M)) :
  create_tree a b (D + 1) = Ok l2 -> (0 <= D)%Z ->
  exists l l',
    create_tree a b D = Ok l /\
    l2 = l ++ l' /\
    Z.of_nat (length l') = (2 ^ (D + 1))%Z /\
    Forall (fun e => depth e = (D + 1)%Z) l'.
Proof.
  intros Hl HD. apply create_tree_ok_inv in Hl; [|lia].
  replace (Z.to_nat (D + 1)) with (S (Z.to_nat D)) in Hl by lia.
  rewrite bfs_items_succ in Hl. destruct Hl as [Hb ->].
  apply Forall_app in Hb. destruct Hb as [Hb _].
  exists (map element_of (bfs_items (Z.to_nat D) [(a, b, 0%Z)])),
         (map element_of (generation (S (Z.to_nat D)) [(a, b, 0%Z)])).
  split; [now apply create_tree_bfs|]. split; [apply map_app|]. split.
  - rewrite length_map, length_generation. cbn [length].
    rewrite Nat.mul_1_l, Nat2Z.inj_pow. f_equal. lia.
  - rewrite Forall_map.
    assert (Hg := generation_depth (S (Z.to_nat D)) [(a, b, 0%Z)] 0%Z
                    ltac:(repeat constructor)).
    eapply Forall_impl; [|exact Hg]. intros it Hit. cbv beta in Hit.
    rewrite depth_element_of, Hit. lia.
Qed.

Lemma create_tree_deeper_extends_witness :
  create_tree scenario_a scenario_b (1 + 1)
    = Ok (map element_of (bfs_items (Z.to_nat 2) [(scenario_a, scenario_b, 0%Z)])) /\
  (0 <= 1)%Z /\
  exists l l',
    create_tree scenario_a scenario_b 1 = Ok l /\
    map element_of (bfs_items (Z.to_nat 2) [(scenario_a, scenario_b, 0%Z)])
      = l ++ l' /\
    Z.of_nat (length l') = (2 ^ (1 + 1))%Z /\
    Forall (fun e => depth e = (1 + 1)%Z) l'.
Proof.
  assert (Hl := scenario_tree 2 ltac:(lia)).
  split; [exact Hl|]. split; [lia|].
  exact (create_tree_deeper_extends float_arith scenario_a scenario_b 1 _ Hl
           ltac:(lia)).
Defined.

(** X10.  Every element of a returned sequence is well formed: its polygon
    has the seven points [[p0, p1, p2, p3, p0, p5, p3]], closed on its first
    corner, it is the element that [create_new_element] builds on its own
    base [(p1, p2)] at its own depth, and its depth lies between [0] and
    [max_depth] (it is [0] when [max_depth < 0]). *)
Theorem create_tree_elements_well_formed (M : arithmetic) (a b : point M) (D : Z)
    (l : list (TreeElement M)) :
  create_tree a b D = Ok l ->
  Forall (fun e =>
            (exists p0 p1 p2 p3 p5,
               polygon e = [p0; p1; p2; p3; p0; p5; p3] /\
               create_new_element p1 p2 (depth e) = Ok e) /\
            (0 <= depth e <= Z.max 0 D)%Z) l.
Proof.
  intros Hl. destruct (Z.lt_ge_cases D 0) as [Hneg|Hpos].
  - rewrite create_tree_negative_depth in Hl by assumption.
    destruct (create_new_element a b 0) as [e|] eqn:He; cbn [bind] in Hl;
      [|discriminate].
    injection Hl as <-.
    destruct (create_new_element_polygon _ _ _ _ He) as (p0 & p3 & p5 & Hp & Hd).
    constructor; [|constructor]. split; [|lia].
    exists p0, a, b, p3, p5. split; [exact Hp|]. now rewrite Hd.
  - apply create_tree_ok_inv in Hl; [|exact Hpos]. destruct Hl as [Hb ->].
    rewrite Forall_map.
    assert (Hr := bfs_items_depth_range (Z.to_nat D) [(a, b, 0%Z)] 0%Z
                    ltac:(repeat constructor)).
    rewrite Forall_forall in *. intros [[a' b'] d'] Hin.
    specialize (Hb _ Hin). specialize (Hr _ Hin). cbn [snd] in Hr.
    apply buildable_element_of in Hb.
    destruct (create_new_element_polygon _ _ _ _ Hb) as (p0 & p3 & p5 & Hp & Hd).
    split; [|lia].
    exists p0, a', b', p3, p5. split; [exact Hp|]. now rewrite Hd.
Qed.

Lemma create_tree_elements_well_formed_witness :
  create_tree scenario_a scenario_b 2
    = Ok (map element_of (bfs_items (Z.to_nat 2) [(scenario_a, scenario_b, 0%Z)])) /\
  Forall (fun e =>
            (exists p0 p1 p2 p3 p5,
               polygon e = [p0; p1; p2; p3; p0; p5; p3] /\
               create_new_element p1 p2 (depth e) = Ok e) /\
            (0 <= depth e <= Z.max 0 2)%Z)
         (map element_of (bfs_items (Z.to_nat 2) [(scenario_a, scenario_b, 0%Z)])).
Proof.
  assert (Hl := scenario_tree 2 ltac:(lia)).
  split; [exact Hl|].
  exact (create_tree_elements_well_formed float_arith scenario_a scenario_b 2 _ Hl).
Defined.

Lemma buildable_deepen_inv {M : arithmetic} (k : Z) (item : work_item M) :
  buildable (deepen_item k item) -> buildable item.
Proof.
  destruct item as [[a b] d]. cbn [deepen_item]. apply buildable_any_depth.
Qed.

Lemma Forall_buildable_deepen_inv {M : arithmetic} (k : Z)
    (items : list (work_item M)) :
  Forall buildable (map (deepen_item k) items) -> Forall buildable items.
Proof.
  intros H. rewrite Forall_map in H.
  eapply Forall_impl; [|exact H]. intros it. apply buildable_deepen_inv.
Qed.

Lemma bfs_items_root {M : arithmetic} (n : nat) (a b : point M) (d : Z) :
  bfs_items (S n) [(a, b, d)] = (a, b, d) :: bfs_items n (children (a, b, d)).
Proof.
  change (bfs_items (S n) [(a, b, d)])
    with ([(a, b, d)] ++ bfs_items n (children (a, b, d) ++ [])).
  now rewrite app_nil_r.
Qed.

(** X12.  The tree is made of the trees of its two roof edges: whenever
    [create_tree a b (D + 1)] returns, with [D >= 0], its result is the root
    element followed by a rearrangement of the results of [create_tree] for
    [D] on the two bases [(polygon[-3], polygon[-2])] and
    [(polygon[-2], polygon[-1])] of the root, which both return, every
    element being moved one generation down. *)
Theorem create_tree_decomposes (M : arithmetic) (a b : point M) (D : Z)
    (l : list (TreeElement M)) :
  create_tree a b (D + 1) = Ok l -> (0 <= D)%Z ->
  exists root rest a1 b1 b2 l1 l2,
    l = root :: rest /\
    create_new_element a b 0 = Ok root /\
    getitem (polygon root) (-3) = Ok a1 /\
    getitem (polygon root) (-2) = Ok b1 /\
    getitem (polygon root) (-1) = Ok b2 /\
    create_tree a1 b1 D = Ok l1 /\
    create_tree b1 b2 D = Ok l2 /\
    Permutation rest (map (deepen 1) l1 ++ map (deepen 1) l2).
Proof.
  intros Hl HD. apply create_tree_ok_inv in Hl; [|lia].
  replace (Z.to_nat (D + 1)) with (S (Z.to_nat D)) in Hl by lia.
  set (n := Z.to_nat D) in *.
  rewrite bfs_items_root in Hl. destruct Hl as [Hb ->].
  apply Forall_cons_iff in Hb. destruct Hb as [Hroot Hrest].
  apply buildable_element_of in Hroot.
  destruct (create_new_element_polygon _ _ _ _ Hroot) as (p0 & p3 & p5 & Hp & _).
  rewrite (children_built _ _ _ _ _ _ _ _ _ _ _ Hroot Hp) in *.
  assert (Hperm : Permutation
            (bfs_items n [(p0, p5, (0 + 1)%Z); (p5, p3, (0 + 1)%Z)])
            (map (deepen_item 1) (bfs_items n [(p0, p5, 0%Z)])
             ++ map (deepen_item 1) (bfs_items n [(p5, p3, 0%Z)]))).
  { rewrite <- !bfs_items_deepen.
    exact (bfs_items_app_perm n [(p0, p5, (0 + 1)%Z)] [(p5, p3, (0 + 1)%Z)]). }
  assert (Hsplit := Permutation_Forall Hperm Hrest).
  apply Forall_app in Hsplit. destruct Hsplit as [H1 H2].
  apply Forall_buildable_deepen_inv in H1, H2.
  exists (element_of (a, b, 0%Z)),
         (map element_of (bfs_items n [(p0, p5, (0 + 1)%Z); (p5, p3, (0 + 1)%Z)])),
         p0, p5, p3,
         (map element_of (bfs_items n [(p0, p5, 0%Z)])),
         (map element_of (bfs_items n [(p5, p3, 0%Z)])).
  split; [reflexivity|]. split; [exact Hroot|].
  rewrite Hp. destruct (getitem_last_three p0 a b p3 p0 p5 p3) as (-> & -> & ->).
  repeat (split; [reflexivity|]).
  split; [now apply create_tree_bfs|]. split; [now apply create_tree_bfs|].
  rewrite <- !map_element_of_deepen, <- map_app.
  apply Permutation_map. exact Hperm.
Qed.

Lemma create_tree_decomposes_witness :
  create_tree scenario_a scenario_b (1 + 1)
    = Ok (map element_of (bfs_items (Z.to_nat 2) [(scenario_a, scenario_b, 0%Z)])) /\
  (0 <= 1)%Z /\
  exists root rest a1 b1 b2 l1 l2,
    map element_of (bfs_items (Z.to_nat 2) [(scenario_a, scenario_b, 0%Z)])
      = root :: rest /\
    create_new_element scenario_a scenario_b 0 = Ok root /\
    getitem (polygon root) (-3) = Ok a1 /\
    getitem (polygon root) (-2) = Ok b1 /\
    getitem (polygon root) (-1) = Ok b2 /\
    create_tree a1 b1 1 = Ok l1 /\
    create_tree b1 b2 1 = Ok l2 /\
    Permutation rest (map (deepen 1) l1 ++ map (deepen 1) l2).
Proof.
  assert (Hl := scenario_tree 2 ltac:(lia)).
  split; [exact Hl|]. split; [lia|].
  exact (create_tree_decomposes float_arith scenario_a scenario_b 1 _ Hl ltac:(lia)).
Defined.

(** ** The loop of [create_tree] *)

(** X13.  A run of the loop from the root item that ends without an
    exception has executed the loop body exactly [2^(max_depth+1) - 1] times
    when [max_depth >= 0] and exactly once when [max_depth < 0], and each
    execution has contributed one element of the result. *)
Theorem create_tree_iterations (M : arithmetic) (a b : point M) (D : Z) (n : nat)
    (q : list (work_item M)) (l : list (TreeElement M)) :
  loop_runs D [(a, b, 0%Z)] [] n q (Ok l) ->
  Z.of_nat n = (2 ^ (Z.max 0 D + 1) - 1)%Z /\ length l = n.
Proof.
  intros Hrun.
  assert (Hl := loop_runs_while_loop _ _ _ _ _ _ Hrun).
  assert (Hlen := loop_runs_length _ _ _ _ _ _ Hrun). cbn [length] in Hlen.
  split; [|exact Hlen].
  rewrite <- (create_tree_length a b D l Hl). now rewrite Hlen.
Qed.

Lemma create_tree_iterations_witness :
  loop_runs 0 [(scenario_a, scenario_b, 0%Z)] [] 1 []
    (Ok ([] ++ [element_of (scenario_a, scenario_b, 0%Z)])) /\
  Z.of_nat 1 = (2 ^ (Z.max 0 0 + 1) - 1)%Z /\
  length ([] ++ [element_of (scenario_a, scenario_b, 0%Z)]) = 1%nat.
Proof.
  assert (Hrun : loop_runs 0 [(scenario_a, scenario_b, 0%Z)] [] 1 []
                   (Ok ([] ++ [element_of (scenario_a, scenario_b, 0%Z)]))).
  { eapply runs_iter; [|apply runs_exit].
    apply loop_body_leaf; [apply scenario_buildable|lia]. }
  split; [exact Hrun|].
  exact (create_tree_iterations float_arith scenario_a scenario_b 0 1 [] _ Hrun).
Defined.

(** X14.  The queue stays short: in every state that the loop reaches from
    the root item, whatever the base points, [front] holds at most
    [2^max_depth] items (at most one when [max_depth <= 0]). *)
Theorem create_tree_queue_bound (M : arithmetic) (a b : point M) (D : Z)
    (front : list (work_item M)) (acc : list (TreeElement M)) :
  loop_reaches D ([(a, b, 0%Z)], []) (front, acc) ->
  (length front <= 2 ^ Z.to_nat D)%nat.
Proof.
  intros Hreach. apply loop_reaches_leaves in Hreach. cbn [fst] in Hreach.
  eapply Nat.le_trans; [apply (length_le_front_leaves D)|].
  eapply Nat.le_trans; [exact Hreach|].
  unfold front_leaves, item_leaves. cbn [map snd]. simpl list_sum.
  rewrite Z.sub_0_r. lia.
Qed.

Lemma create_tree_queue_bound_witness :
  loop_reaches 1 ([(scenario_a, scenario_b, 0%Z)], [])
    ([] ++ children (scenario_a, scenario_b, 0%Z),
     [] ++ [element_of (scenario_a, scenario_b, 0%Z)]) /\
  (length ([] ++ children (scenario_a, scenario_b, 0%Z)) <= 2 ^ Z.to_nat 1)%nat.
Proof.
  split; [exact scenario_first_step|].
  exact (create_tree_queue_bound float_arith _ _ 1 _ _ scenario_first_step).
Defined.

(** X15.  Elements are never touched once appended: in every state that the
    loop reaches from the root item, [all_elements] is an initial segment of
    the list that [create_tree] returns, and the rest of that list has at
    least one element for each item still in the queue. *)
Theorem create_tree_keeps_elements (M : arithmetic) (a b : point M) (D : Z)
    (front : list (work_item M)) (acc l : list (TreeElement M)) :
  loop_reaches D ([(a, b, 0%Z)], []) (front, acc) ->
  create_tree a b D = Ok l ->
  exists rest, l = acc ++ rest /\ (length front <= length rest)%nat.
Proof.
  intros Hreach Hl. apply loop_reaches_while_loop in Hreach.
  cbn [fst snd] in Hreach. fold (create_tree a b D) in Hreach.
  apply (while_loop_extends D). congruence.
Qed.

Lemma create_tree_keeps_elements_witness :
  loop_reaches 1 ([(scenario_a, scenario_b, 0%Z)], [])
    ([] ++ children (scenario_a, scenario_b, 0%Z),
     [] ++ [element_of (scenario_a, scenario_b, 0%Z)]) /\
  create_tree scenario_a scenario_b 1
    = Ok (map element_of (bfs_items (Z.to_nat 1) [(scenario_a, scenario_b, 0%Z)])) /\
  exists rest,
    map element_of (bfs_items (Z.to_nat 1) [(scenario_a, scenario_b, 0%Z)])
    = ([] ++ [element_of (scenario_a, scenario_b, 0%Z)]) ++ rest /\
    (length ([] ++ children (scenario_a, scenario_b, 0%Z)) <= length rest)%nat.
Proof.
  assert (Hl := scenario_tree 1 ltac:(lia)).
  split; [exact scenario_first_step|]. split; [exact Hl|].
  exact (create_tree_keeps_elements float_arith _ _ 1 _ _ _ scenario_first_step Hl).
Defined.

(** ** [main] *)

Lemma main_first_base :
  main_all_elements
  = create_tree (M := float_arith) (290%float, 0%float) (510%float, 0%float) 12.
Proof. reflexivity. Qed.

Lemma main_returns :
  (match main_all_elements with Ok _ => true | Raise _ => false end) = true.
Proof. vm_compute. reflexivity. Qed.

(** X16.  The generation step of [main] cannot fail: the first base is
    [(290, 0)], [(510, 0)], centred on the top edge of the canvas, and
    [create_tree] hands [2^13 - 1 = 8191] elements to the drawing loop, the
    first of which is built on that base and each of which has a polygon of
    7 points. *)
Theorem main_all_elements_drawn :
  exists l root,
    main_all_elements = Ok l /\
    Z.of_nat (length l) = 8191%Z /\
    Forall (fun e => length (polygon e) = 7%nat) l /\
    nth_error l 0 = Some root /\
    nth_error (polygon root) 1 = Some (290%float, 0%float) /\
    nth_error (polygon root) 2 = Some (510%float, 0%float) /\
    PrimFloat.add 290 510 = CANVAS_WIDTH.
Proof.
  assert (Hok := main_returns).
  destruct main_all_elements as [l|] eqn:Hl; [clear Hok|discriminate].
  rewrite main_first_base in Hl.
  assert (Hlen := create_tree_length _ _ _ _ Hl).
  apply create_tree_ok_inv in Hl; [|lia]. destruct Hl as [Hb Hl].
  assert (Hroot : create_new_element (M := float_arith)
                    (290%float, 0%float) (510%float, 0%float) 0
                  = Ok (element_of (M := float_arith)
                        ((290%float, 0%float), (510%float, 0%float), 0%Z))).
  { apply buildable_element_of. rewrite Forall_forall in Hb. apply Hb.
    destruct (Z.to_nat 12); cbn [bfs_items app]; now left. }
  destruct (create_new_element_polygon _ _ _ _ Hroot) as (p0 & p3 & p5 & Hp & _).
  exists l, (element_of (M := float_arith)
               ((290%float, 0%float), (510%float, 0%float), 0%Z)).
  split; [reflexivity|]. split; [exact Hlen|]. split; [|split; [|split; [|split]]].
  - subst l. rewrite Forall_map. rewrite Forall_forall in *.
    intros [[a' b'] d'] Hin. apply Hb, buildable_element_of in Hin.
    destruct (create_new_element_polygon _ _ _ _ Hin) as (q0 & q3 & q5 & -> & _).
    reflexivity.
  - subst l. destruct (Z.to_nat 12); reflexivity.
  - now rewrite Hp.
  - now rewrite Hp.
  - vm_compute. reflexivity.
Qed.

(** ** Degenerate bases in IEEE binary64 *)

Lemma float_sub_diag (x : float) : finite_float x -> PrimFloat.sub x x = 0%float.
Proof.
  unfold finite_float. intros Hx. apply Prim2SF_inj. rewrite sub_spec.
  change (Prim2SF 0) with (S754_zero false).
  destruct (Prim2SF x) as [s|s| |s m e]; try contradiction.
  - now destruct s.
  - unfold SF64sub, SFsub. rewrite Z.sub_diag. reflexivity.
Qed.

(** X17.  In IEEE binary64 too, a degenerate base ends with the
    [ZeroDivisionError] of the division by the base length: for every point
    [a] with finite coordinates, every depth and every [max_depth],
    [create_new_element a a depth] and [create_tree a a max_depth] raise
    [ZeroDivisionError]. *)
Theorem create_tree_degenerate_base_float (a : point float_arith) (d D : Z) :
  finite_float (fst a) -> finite_float (snd a) ->
  create_new_element a a d = Raise ZeroDivisionError /\
  create_tree a a D = Raise ZeroDivisionError.
Proof.
  destruct a as [x y]. cbn [fst snd]. intros Hx Hy.
  assert (He : forall d', create_new_element (M := float_arith) (x, y) (x, y) d'
                          = Raise ZeroDivisionError).
  { intros d'. unfold create_new_element.
    cbn [float_arith num_sub num_neg num_pow_2 num_add carrier fst snd].
    rewrite (float_sub_diag x Hx), (float_sub_diag y Hy). reflexivity. }
  split; [apply He|apply create_tree_root_raises, He].
Qed.

Lemma create_tree_degenerate_base_float_witness :
  finite_float (fst scenario_b) /\ finite_float (snd scenario_b) /\
  create_new_element scenario_b scenario_b 5 = Raise ZeroDivisionError /\
  create_tree scenario_b scenario_b 3 = Raise ZeroDivisionError.
Proof.
  assert (Hx : finite_float (fst scenario_b)) by (vm_compute; exact I).
  assert (Hy : finite_float (snd scenario_b)) by (vm_compute; exact I).
  split; [exact Hx|]. split; [exact Hy|].
  exact (create_tree_degenerate_base_float scenario_b 5 3 Hx Hy).
Defined.
